(** * mongoose-counters: counter allocation, reset and configuration

    A shallow embedding of [src/index.ts] (class [MongooseCounter] and the
    plugin function [mongooseCounter]).  The host collaborators (the mongoose
    registry, the schema object, the counter collection and the two driver
    calls made on it) are explicit state that is passed in and out. *)

From Stdlib Require Import ZArith Lia.
From stdpp Require Import base option list strings gmap.

(** ** Values, documents and errors *)

(** Field values of a document as the plugin sees them: [StringMap] promises
    strings, and the incremented field receives a [Number]. *)
Inductive value :=
  | VString (s : string)
  | VNumber (n : Z).

#[global] Instance value_eq_dec : EqDecision value.
Proof. solve_decision. Defined.

(** [StringMap = { [k: string]: string }]: an object that is only read by key.
    [m !! f = None] is JavaScript's [m[f] === undefined]. *)
Abbreviation StringMap := (gmap string value).

(** The object that [getReferenceField] builds and that is stored in, and
    compared with, the [Mixed] column [reference].  The host compares embedded
    documents field by field and in order, so the own properties are kept in
    creation order; a property copied from a missing field holds
    [undefined] ([None]).  (Property names that are array indices, which
    JavaScript would order first, are not treated specially.) *)
Definition js_object := list (string * option value).

(** [map[f] = v] on such an object: overwrite in place, or create last. *)
Fixpoint js_set (map : js_object) (f : string) (v : option value) : js_object :=
  match map with
  | [] => [(f, v)]
  | (k, w) :: rest =>
      if decide (k = f) then (k, v) :: rest else (k, w) :: js_set rest f v
  end.

(** [interface CounterDocument]: [id], [reference] ([None] is [null]) and
    [counter]. *)
Record CounterDocument := {
  doc_id : string;
  doc_reference : option js_object;
  doc_counter : Z;
}.

#[global] Instance CounterDocument_eq_dec : EqDecision CounterDocument.
Proof. solve_decision. Defined.

(** Everything that is thrown, or handed to a callback, in this module. *)
Inductive error :=
  | Error (message : string)            (* [new Error(message)] *)
  | TypeError                           (* a property read on [undefined] *)
  | OverwriteModelError (name : string) (* [mongoose.model] on a taken name *)
  | MongoError (code : Z).              (* a rejection coming from the driver *)

#[global] Instance error_eq_dec : EqDecision error.
Proof. solve_decision. Defined.

(** The duplicate-key rejection of the unique index on [(id, reference)]. *)
Definition duplicate_key : error := MongoError 11000.

(** A call either completes or throws; a hook either calls [next()] or
    [next(err)]. *)
Inductive result (A : Type) :=
  | Ok (a : A)
  | Err (e : error).
Arguments Ok {A} a.
Arguments Err {A} e.

(** What an awaited driver call settles to. *)
Inductive settled (A : Type) :=
  | Resolved (a : A)
  | Rejected (err : error).
Arguments Resolved {A} a.
Arguments Rejected {A} err.

(** A document of the target model: the [isNew] flag of mongoose and the
    fields that [toJSON] shows and [set] writes. *)
Record Document := {
  isNew : bool;
  fields : gmap string value;
}.

Definition toJSON (this : Document) : StringMap := fields this.

Definition set (this : Document) (path : string) (v : value) : Document :=
  {| isNew := isNew this; fields := <[path := v]> (fields this) |}.

(** ** The counter collection and the two driver calls *)

(** The collection named [collectionName]: its documents in storage order. *)
Abbreviation store := (list CounterDocument).

(** A query condition: [{ id }] or [{ id, reference }]. *)
Record condition := {
  cond_id : string;
  cond_reference : option (option js_object);
}.

Definition matches (q : condition) (d : CounterDocument) : bool :=
  bool_decide (doc_id d = cond_id q)
  && match cond_reference q with
     | None => true
     | Some r => bool_decide (doc_reference d = r)
     end.

(** The interface of [Model<CounterDocument>] that the plugin consumes:
    - [findOneAndUpdate({id, reference}, {$inc: {counter: 1}},
       {new: true, upsert: true})];
    - [where(condition).setOptions({multi: true})
       .update({$set: {counter: 0}}, next)]. *)
Record Model := {
  findOneAndUpdate :
    store -> string -> option js_object -> store * settled CounterDocument;
  update : store -> condition -> store * settled unit;
}.

Definition inc (d : CounterDocument) : CounterDocument :=
  {| doc_id := doc_id d; doc_reference := doc_reference d;
     doc_counter := (doc_counter d + 1)%Z |}.

Definition zero (d : CounterDocument) : CounterDocument :=
  {| doc_id := doc_id d; doc_reference := doc_reference d;
     doc_counter := 0%Z |}.

Definition key (i : string) (r : option js_object) : condition :=
  {| cond_id := i; cond_reference := Some r |}.

(** The atomic find-increment-or-insert of the host: the first document
    matching [(i, r)] is incremented and returned as updated; when there is
    none, one is inserted from the condition with [$inc] applied to the
    missing [counter]. *)
Fixpoint upsert_inc (st : store) (i : string) (r : option js_object)
  : store * CounterDocument :=
  match st with
  | [] =>
      let d := {| doc_id := i; doc_reference := r; doc_counter := 1%Z |} in
      ([d], d)
  | d :: rest =>
      if matches (key i r) d then (inc d :: rest, inc d)
      else let '(rest', res) := upsert_inc rest i r in (d :: rest', res)
  end.

(** The multi-document update: every matching document gets [counter = 0]. *)
Definition update_zero (st : store) (q : condition) : store :=
  (fun d => if matches q d then zero d else d) <$> st.

Definition atomic : Model := {|
  findOneAndUpdate st i r :=
    let '(st', res) := upsert_inc st i r in (st', Resolved res);
  update st q := (update_zero st q, Resolved tt);
|}.

(** [Number.MAX_SAFE_INTEGER] and [Number.isSafeInteger], on integers. *)
Definition MAX_SAFE_INTEGER : Z := 9007199254740991.

Definition isSafeInteger (z : Z) : bool :=
  (- MAX_SAFE_INTEGER <=? z)%Z && (z <=? MAX_SAFE_INTEGER)%Z.

(** The Number that JavaScript receives for a stored 64-bit integer: the
    integer itself up to 53 bits, and from there on the nearest multiple of
    the spacing of doubles at that size, a tie going to the even one. *)
Definition toNumber (z : Z) : Z :=
  let a := Z.abs z in
  let e := Z.log2 a in
  if (e <=? 52)%Z then z
  else
    let ulp := (2 ^ (e - 52))%Z in
    let q := (a / ulp)%Z in
    let rem := (a mod ulp)%Z in
    let up :=
      if (2 * rem <? ulp)%Z then false
      else if (ulp <? 2 * rem)%Z then true
      else negb (Z.even q) in
    (Z.sgn z * ((if up then q + 1 else q) * ulp))%Z.

(** A counter document as the hook receives it from the driver. *)
Definition received (d : CounterDocument) : CounterDocument :=
  {| doc_id := doc_id d; doc_reference := doc_reference d;
     doc_counter := toNumber (doc_counter d) |}.

(** The atomic model with its answer as JavaScript sees it: the collection
    holds the counter as an integer, [res.counter] is a Number. *)
Definition atomic_number : Model := {|
  findOneAndUpdate st i r :=
    let '(st', res) := upsert_inc st i r in (st', Resolved (received res));
  update st q := (update_zero st q, Resolved tt);
|}.

(** An upsert that is not atomic, seen from the caller that loses the race:
    it finds no document, [rival]'s write lands, and its own insert then
    violates the unique index. *)
Definition racing (rival : store -> store) : Model := {|
  findOneAndUpdate st i r :=
    if existsb (matches (key i r)) st then
      let '(st', res) := upsert_inc st i r in (st', Resolved res)
    else
      let st1 := rival st in
      if existsb (matches (key i r)) st1 then (st1, Rejected duplicate_key)
      else let '(st', res) := upsert_inc st1 i r in (st', Resolved res);
  update st q := (update_zero st q, Resolved tt);
|}.

(** The value a pair currently stands at: the counter of the first matching
    document, [0] for a pair without one. *)
Definition current (st : store) (i : string) (r : option js_object) : Z :=
  match find (matches (key i r)) st with
  | None => 0%Z
  | Some d => doc_counter d
  end.

(** ** Configuration *)

(** A property of the options object that was passed in: not there at all,
    there with the value [undefined], or there with a value. *)
Inductive prop (A : Type) :=
  | Absent
  | Undefined
  | Given (a : A).
Arguments Absent {A}.
Arguments Undefined {A}.
Arguments Given {A} a.

(** What [referenceFields] may hold: the declared [string[]], or the single
    field name that the constructor also accepts. *)
Inductive fieldNames :=
  | Single (f : string)
  | Several (fs : list string).

(** [Partial<CounterOptions>]; for [id], [Given None] is [null]. *)
Record PartialOptions := {
  p_id : prop (option string);
  p_incField : prop string;
  p_referenceFields : prop fieldNames;
  p_collectionName : prop string;
}.

(** [this.options] once the constructor has returned. *)
Record CounterOptions := {
  opt_id : string;
  opt_incField : string;
  opt_referenceFields : list string;
  opt_collectionName : string;
}.

(** [{ ...defaults, ...options }] on one property: a property that is there
    wins, also when it holds [undefined] ([None]). *)
Definition spread {A : Type} (default : option A) (p : prop A) : option A :=
  match p with
  | Absent => default
  | Undefined => None
  | Given a => Some a
  end.

(** JavaScript truthiness of a string that may be [undefined]. *)
Definition truthy (s : option string) : bool :=
  match s with
  | Some s => negb (bool_decide (s = EmptyString))
  | None => false
  end.

(** The mongoose instance: the names of the models registered on it and the
    behaviour of the models it hands out. *)
Record Mongoose := {
  models : list string;
  driver : Model;
}.

Record MongooseCounter := {
  options : CounterOptions;
  useReference : bool;
  counterModel : Model;
}.

Definition incField_mandatory : string :=
  "incField option does not null is mandatory".

Definition reference_without_name : string :=
  "Cannot use reference fields without specifying a name".

(** The character [U+0022]. *)
Definition quote : string := String (Ascii.ascii_of_nat 34) EmptyString.

Definition not_a_number (incField : string) : string :=
  "Auto increment field " ++ quote ++ incField ++ quote
  ++ " already present and not of type " ++ quote ++ "Number" ++ quote.

Section Configuration.

(** [String.prototype.toUpperCase] of the host, used on [charAt(0)]. *)
Variable toUpperCase : string -> string.

Definition charAt0 (s : string) : string :=
  match s with
  | EmptyString => EmptyString
  | String a _ => String a EmptyString
  end.

Definition slice1 (s : string) : string :=
  match s with
  | EmptyString => EmptyString
  | String _ rest => rest
  end.

Definition modelName (collectionName id : string) : string :=
  toUpperCase (charAt0 collectionName) ++ slice1 collectionName ++ "_" ++ id.

(** [createCounterModel]: registers the counter model under [modelName];
    mongoose refuses a name that is taken by another schema. *)
Definition createCounterModel (mongoose : Mongoose)
    (collectionName : option string) (id : string)
  : Mongoose * result Model :=
  match collectionName with
  | None => (mongoose, Err TypeError)
  | Some collectionName =>
      let name := modelName collectionName id in
      if bool_decide (name ∈ models mongoose)
      then (mongoose, Err (OverwriteModelError name))
      else ({| models := name :: models mongoose; driver := driver mongoose |},
            Ok (driver mongoose))
  end.

(** [constructor(mongoose, schema, options?)].  The defaults are
    [{ id: null, incField: '_id', collectionName: 'counters' }]; in [id],
    [None] is [undefined] and [Some None] is [null]. *)
Definition constructor (mongoose : Mongoose) (opts : option PartialOptions)
  : Mongoose * result MongooseCounter :=
  let p := default {| p_id := Absent; p_incField := Absent;
                      p_referenceFields := Absent;
                      p_collectionName := Absent |} opts in
  let id := spread (Some None) (p_id p) in
  let incField := spread (Some "_id") (p_incField p) in
  let collectionName := spread (Some "counters") (p_collectionName p) in
  if negb (truthy incField) then (mongoose, Err (Error incField_mandatory))
  else
    let incField := default EmptyString incField in
    let '(referenceFields, useReference) :=
      match spread None (p_referenceFields p) with
      | None => (Several [incField], false)
      | Some fs => (fs, true)
      end in
    let referenceFields :=
      match referenceFields with
      | Several fs => fs
      | Single f => [f]
      end in
    if useReference && bool_decide (id = Some None)
    then (mongoose, Err (Error reference_without_name))
    else
      let id := if truthy (mjoin id) then default EmptyString (mjoin id)
                else incField in
      match createCounterModel mongoose collectionName id with
      | (mongoose', Ok model) =>
          (mongoose',
           Ok {| options :=
                   {| opt_id := id; opt_incField := incField;
                      opt_referenceFields := referenceFields;
                      opt_collectionName :=
                        default EmptyString collectionName |};
                 useReference := useReference;
                 counterModel := model |})
      | (mongoose', Err e) => (mongoose', Err e)
      end.

End Configuration.

(** ** The schema of the target model *)

(** A schema path as [schema.path(name)] returns it: only [instance] is
    read. *)
Record SchemaType := { instance : string }.

#[global] Instance SchemaType_eq_dec : EqDecision SchemaType.
Proof. solve_decision. Defined.

(** The target schema: declared paths, static methods and [pre] hooks. *)
Record Schema := {
  paths : gmap string SchemaType;
  statics : list string;
  pres : list string;
}.

(** [addCounterToSchema]. *)
Definition addCounterToSchema (c : MongooseCounter) (schema : Schema)
  : result Schema :=
  let incField := opt_incField (options c) in
  match paths schema !! incField with
  | None =>
      Ok {| paths := <[incField := {| instance := "Number" |}]> (paths schema);
            statics := statics schema; pres := pres schema |}
  | Some schemaKey =>
      if bool_decide (instance schemaKey ≠ "Number")
      then Err (Error (not_a_number incField))
      else Ok schema
  end.

(** [addStaticMethods]: [schema.static(name, fn)] assigns [statics[name]],
    so a name that is there already keeps its place and only gets the new
    function (which function a name holds is not recorded). *)
Definition addStaticMethods (schema : Schema) : Schema :=
  {| paths := paths schema;
     statics := if decide ("resetCounter" ∈ statics schema)
                then statics schema
                else "resetCounter" :: statics schema;
     pres := pres schema |}.

Definition addHooks (schema : Schema) : Schema :=
  {| paths := paths schema; statics := statics schema;
     pres := "save" :: pres schema |}.

(** [initialize]. *)
Definition initialize (c : MongooseCounter) (schema : Schema) : result Schema :=
  match addCounterToSchema c schema with
  | Ok schema => Ok (addHooks (addStaticMethods schema))
  | Err e => Err e
  end.

(** ** Reference keys, the [save] hook and [resetCounter] *)

(** [getReferenceField]: [null] for a global counter, otherwise the object
    holding, for each configured field in turn, that field of [document].
    ([referenceFields] is never [undefined] after the constructor.) *)
Definition getReferenceField (c : MongooseCounter) (document : StringMap)
  : option js_object :=
  if negb (useReference c) then None
  else Some (foldl (fun map f => js_set map f (document !! f)) []
               (opt_referenceFields (options c))).

(** The hook after its [await] has settled: the [try] body's tail, or the
    [catch]. *)
Definition pre_save_settled (c : MongooseCounter) (this : Document)
    (res : settled CounterDocument) : result Document :=
  match res with
  | Resolved res =>
      Ok (set this (opt_incField (options c)) (VNumber (doc_counter res)))
  | Rejected err => Err err
  end.

(** The [pre('save')] hook on the collection [st]. *)
Definition pre_save (c : MongooseCounter) (st : store) (this : Document)
  : store * result Document :=
  if negb (isNew this) then (st, Ok this)
  else
    let reference := getReferenceField c (toJSON this) in
    let '(st', res) :=
      findOneAndUpdate (counterModel c) st (opt_id (options c)) reference in
    (st', pre_save_settled c this res).

(** [save()] of the host around the hook: a failed hook aborts it, a
    successful one is followed by the write, after which the document is no
    longer new. *)
Definition save (c : MongooseCounter) (st : store) (this : Document)
  : store * result Document :=
  match pre_save c st this with
  | (st', Ok this') => (st', Ok {| isNew := false; fields := fields this' |})
  | (st', Err e) => (st', Err e)
  end.

(** The second argument of [resetCounter]: [StringMap | Function]. *)
Inductive resetArgument :=
  | Reference (reference : StringMap)
  | Callback.

(** The condition that [resetCounter] builds. *)
Definition resetCondition (c : MongooseCounter) (id : string)
    (reference : resetArgument) : condition :=
  match reference with
  | Callback => {| cond_id := id; cond_reference := None |}
  | Reference reference =>
      {| cond_id := id;
         cond_reference := Some (getReferenceField c reference) |}
  end.

(** The static [resetCounter(id, reference, cb)]; the result is what the
    callback receives. *)
Definition resetCounter (c : MongooseCounter) (st : store) (id : string)
    (reference : resetArgument) : store * settled unit :=
  update (counterModel c) st (resetCondition c id reference).

(** The plugin that [mongooseCounter(mongoose)] returns ([mongoose] is an
    instance of [Mongoose] by its type). *)
Definition plugin (toUpperCase : string -> string) (mongoose : Mongoose)
    (schema : Schema) (opts : option PartialOptions)
  : Mongoose * result (MongooseCounter * Schema) :=
  match constructor toUpperCase mongoose opts with
  | (mongoose', Ok counter) =>
      match initialize counter schema with
      | Ok schema' => (mongoose', Ok (counter, schema'))
      | Err e => (mongoose', Err e)
      end
  | (mongoose', Err e) => (mongoose', Err e)
  end.

(** ** A running example: the inhabitants of the README *)

Module Example.

Definition upper (s : string) : string :=
  match s with
  | String a rest =>
      let n := Ascii.nat_of_ascii a in
      if (97 <=? n)%nat && (n <=? 122)%nat
      then String (Ascii.ascii_of_nat (n - 32)) rest
      else s
  | EmptyString => s
  end.

Definition mongoose : Mongoose := {| models := []; driver := atomic |}.

Definition scoped : PartialOptions :=
  {| p_id := Given (Some "seq");
     p_incField := Given "inhabitant_number";
     p_referenceFields := Given (Several ["country"; "city"]);
     p_collectionName := Absent |}.

Definition unnamed : PartialOptions :=
  {| p_id := Absent;
     p_incField := Given "inhabitant_number";
     p_referenceFields := Given (Several ["country"; "city"]);
     p_collectionName := Absent |}.

Definition inhabitants : MongooseCounter :=
  {| options := {| opt_id := "seq"; opt_incField := "inhabitant_number";
                   opt_referenceFields := ["country"; "city"];
                   opt_collectionName := "counters" |};
     useReference := true;
     counterModel := atomic |}.

(** The same counter, its model answering with Numbers. *)
Definition numbered : MongooseCounter :=
  {| options := {| opt_id := "seq"; opt_incField := "inhabitant_number";
                   opt_referenceFields := ["country"; "city"];
                   opt_collectionName := "counters" |};
     useReference := true;
     counterModel := atomic_number |}.

Definition global : MongooseCounter :=
  {| options := {| opt_id := "id"; opt_incField := "id";
                   opt_referenceFields := ["id"];
                   opt_collectionName := "counters" |};
     useReference := false;
     counterModel := atomic |}.

Definition person (country city : string) : Document :=
  {| isNew := true;
     fields := <["country" := VString country]>
                 (<["city" := VString city]> ∅) |}.

Definition paris : Document := person "FR" "Paris".
Definition nyc : Document := person "US" "NYC".

(** A new document that has a country but no city. *)
Definition stateless : Document :=
  {| isNew := true; fields := <["country" := VString "FR"]> ∅ |}.

Definition FR_Paris : js_object :=
  [("country", Some (VString "FR")); ("city", Some (VString "Paris"))].
Definition US_NYC : js_object :=
  [("country", Some (VString "US")); ("city", Some (VString "NYC"))].

(** The number that a save wrote into the document, if it succeeded. *)
Definition number (r : store * result Document) : option value :=
  match r.2 with
  | Ok this => fields this !! "inhabitant_number"
  | Err _ => None
  end.

End Example.

(** ** Derived notions used in the statements *)

(** Saving the same document again, with its fields edited in between. *)
Fixpoint resave (c : MongooseCounter) (st : store) (this : Document)
    (edits : list (gmap string value → gmap string value))
  : store * result Document :=
  match edits with
  | [] => (st, Ok this)
  | edit :: edits =>
      let edited := {| isNew := isNew this; fields := edit (fields this) |} in
      match save c st edited with
      | (st', Ok this') => resave c st' this' edits
      | (st', Err e) => (st', Err e)
      end
  end.

(** The README scenario: two inhabitants of Paris and one of New York. *)
Definition scenario : store :=
  (save Example.inhabitants
     (save Example.inhabitants
        (save Example.inhabitants [] Example.paris).1 Example.paris).1
     Example.nyc).1.

Definition FR_Paris_key : StringMap :=
  <["country" := VString "FR"]> (<["city" := VString "Paris"]> ∅).

(** A counter whose model, asked to create FR/Paris, loses that race. *)
Definition loser : MongooseCounter :=
  {| options := options Example.inhabitants;
     useReference := true;
     counterModel :=
       racing (λ st, (upsert_inc st "seq" (Some Example.FR_Paris)).1) |}.

(** A stored reference all of whose properties hold a value. *)
Definition complete (r : option js_object) : bool :=
  match r with
  | None => true
  | Some k => forallb (λ p, bool_decide (is_Some p.2)) k
  end.

(** The counter documents that a [resetCounter] call selects. *)
Definition selected (c : MongooseCounter) (st : store) (id : string)
    (reference : resetArgument) : store :=
  filter (λ d, matches (resetCondition c id reference) d = true) st.

(** A hook invocation: suspended at its [await], its request issued for the
    reference it derived, or finished. *)
Inductive task :=
  | Awaiting (this : Document) (reference : option js_object)
  | Finished (r : result Document).

(** The hook up to its [await]. *)
Definition start (c : MongooseCounter) (this : Document) : task :=
  if negb (isNew this) then Finished (Ok this)
  else Awaiting this (getReferenceField c (toJSON this)).

(** The host serves the request of invocation [n], and that hook runs on to
    its end. *)
Definition serve (c : MongooseCounter) (s : store * list task) (n : nat)
  : option (store * list task) :=
  match s.2 !! n with
  | Some (Awaiting this reference) =>
      let '(st', res) :=
        findOneAndUpdate (counterModel c) s.1 (opt_id (options c)) reference in
      Some (st', <[n := Finished (pre_save_settled c this res)]> s.2)
  | _ => None
  end.

(** The requests are served in the order of [schedule]. *)
Fixpoint run (c : MongooseCounter) (s : store * list task)
    (schedule : list nat) : option (store * list task) :=
  match schedule with
  | [] => Some s
  | n :: schedule =>
      match serve c s n with
      | Some s' => run c s' schedule
      | None => None
      end
  end.

(** The value that a finished invocation wrote into its document. *)
Definition allocated (c : MongooseCounter) (t : task) : option Z :=
  match t with
  | Finished (Ok this) =>
      match fields this !! opt_incField (options c) with
      | Some (VNumber v) => Some v
      | _ => None
      end
  | _ => None
  end.

(** The values [v+1 .. v+n]. *)
Definition following (v : Z) (n : nat) : list Z :=
  (λ k, (v + Z.of_nat k + 1)%Z) <$> seq 0 n.

(** [map[f]] on the object that [getReferenceField] builds. *)
Fixpoint js_get (map : js_object) (f : string) : option value :=
  match map with
  | [] => None
  | (k, w) :: rest => if decide (k = f) then w else js_get rest f
  end.

(** The options object [{}]: what [options?] stands for when left out. *)
Definition no_options : PartialOptions :=
  {| p_id := Absent; p_incField := Absent; p_referenceFields := Absent;
     p_collectionName := Absent |}.

(** The pair that the unique index of the counter collection is on. *)
Definition pair (d : CounterDocument) : string * option js_object :=
  (doc_id d, doc_reference d).

(** Documents saved one after the other, each save awaited. *)
Fixpoint saveAll (c : MongooseCounter) (st : store) (docs : list Document)
  : store * list (result Document) :=
  match docs with
  | [] => (st, [])
  | this :: docs =>
      let '(st1, r) := save c st this in
      let '(st2, rs) := saveAll c st1 docs in
      (st2, r :: rs)
  end.

(** What callers do to the counter collection: save a document through a
    counter, or reset through one. *)
Inductive operation :=
  | Save (c : MongooseCounter) (this : Document)
  | Reset (c : MongooseCounter) (id : string) (reference : resetArgument).

Definition perform (st : store) (o : operation) : store :=
  match o with
  | Save c this => (save c st this).1
  | Reset c id reference => (resetCounter c st id reference).1
  end.

(** The counter of the operation is served by the atomic model. *)
Definition served_atomically (o : operation) : Prop :=
  match o with
  | Save c _ | Reset c _ _ => counterModel c = atomic
  end.

(** The reference that the suspended invocation [n] has asked for. *)
Definition requested (pool : list task) (n : nat)
  : option (option js_object) :=
  match pool !! n with
  | Some (Awaiting _ reference) => Some reference
  | _ => None
  end.

(** How many of the first [k] requests served were for reference [r]. *)
Definition served_before (pool : list task) (schedule : list nat) (k : nat)
    (r : option js_object) : nat :=
  length (filter (λ n, requested pool n = Some r) (take k schedule)).

(** The database: its collections by name; one that was never written to
    is empty. *)
Definition collection (db : gmap string (list CounterDocument))
    (name : string) : list CounterDocument :=
  default [] (db !! name).

(** [save()] through a counter, on the collection that its model is bound
    to. *)
Definition save_in (c : MongooseCounter)
    (db : gmap string (list CounterDocument)) (this : Document)
  : gmap string (list CounterDocument) * result Document :=
  let name := opt_collectionName (options c) in
  let '(st', r) := save c (collection db name) this in
  (<[name := st']> db, r).

(** ** The atomic upsert *)

Section Upsert.

Implicit Types (st : store) (i : string) (r : option js_object).
Implicit Types (d : CounterDocument).

Lemma matches_key i r d :
  matches (key i r) d = true ↔ doc_id d = i ∧ doc_reference d = r.
Proof.
  unfold matches; simpl. rewrite andb_true_iff, !bool_decide_eq_true. tauto.
Qed.

Lemma matches_key_false i r d :
  matches (key i r) d = false ↔ doc_id d ≠ i ∨ doc_reference d ≠ r.
Proof.
  rewrite <- not_true_iff_false, matches_key.
  destruct (decide (doc_id d = i)), (decide (doc_reference d = r)); tauto.
Qed.

Lemma matches_inc q d : matches q (inc d) = matches q d.
Proof. reflexivity. Qed.

Lemma matches_zero q d : matches q (zero d) = matches q d.
Proof. reflexivity. Qed.

(** The returned document is the condition's, one above the old value. *)
Lemma upsert_inc_result st i r :
  doc_id (upsert_inc st i r).2 = i
  ∧ doc_reference (upsert_inc st i r).2 = r
  ∧ doc_counter (upsert_inc st i r).2 = (current st i r + 1)%Z.
Proof.
  unfold current. induction st as [|d st IH]; simpl; [done|].
  destruct (matches (key i r) d) eqn:M; simpl.
  - apply matches_key in M as [-> ->]. done.
  - destruct (upsert_inc st i r) as [st' res]. exact IH.
Qed.

(** The stored value moved by exactly one. *)
Lemma upsert_inc_current st i r :
  current (upsert_inc st i r).1 i r = (current st i r + 1)%Z.
Proof.
  unfold current. induction st as [|d st IH]; simpl.
  - assert (matches (key i r)
              {| doc_id := i; doc_reference := r; doc_counter := 1 |} = true)
      as -> by (by apply matches_key). done.
  - destruct (matches (key i r) d) eqn:M; simpl.
    + rewrite matches_inc, M. done.
    + destruct (upsert_inc st i r) as [st' res]. simpl in *. by rewrite M.
Qed.



Lemma current_fresh st i r :
  Forall (λ d, matches (key i r) d = false) st → current st i r = 0%Z.
Proof.
  unfold current. induction 1 as [|d st M _ IH]; simpl; [done|]. by rewrite M.
Qed.

(** Documents that the condition does not match are not touched. *)
Lemma upsert_inc_frame st i r (q : condition) :
  (∀ d, matches q d = true → matches (key i r) d = false) →
  filter (λ d, matches q d = true) (upsert_inc st i r).1
  = filter (λ d, matches q d = true) st
  ∧ find (matches q) (upsert_inc st i r).1 = find (matches q) st.
Proof.
  intros Hq. induction st as [|d st [IH1 IH2]]; cbn [upsert_inc fst snd find].
  - rewrite filter_cons, filter_nil.
    destruct (matches q _) eqn:M; [|by case_decide].
    apply Hq in M. apply matches_key_false in M. simpl in M. by destruct M.
  - destruct (matches (key i r) d) eqn:M; cbn [fst snd find].
    + rewrite !filter_cons, matches_inc.
      destruct (matches q d) eqn:Mq; [apply Hq in Mq; congruence|].
      by case_decide.
    + destruct (upsert_inc st i r) as [st' res]. cbn [fst snd find] in *.
      rewrite !filter_cons, IH1, IH2. done.
Qed.

Lemma key_disjoint i r i' r' d :
  (i', r') ≠ (i, r) →
  matches (key i' r') d = true → matches (key i r) d = false.
Proof.
  intros Hne [E1 E2]%matches_key. apply matches_key_false.
  destruct (decide (doc_id d = i)) as [E|]; [|by left].
  right. intros E'. apply Hne. congruence.
Qed.

End Upsert.

(** ** The [save] hook on the atomic store *)

Section Hook.

Variable c : MongooseCounter.
Hypothesis host : counterModel c = atomic.

Let id := opt_id (options c).
Let incField := opt_incField (options c).

Lemma pre_save_new st this :
  isNew this = true →
  pre_save c st this
  = ((upsert_inc st id (getReferenceField c (toJSON this))).1,
     Ok (set this incField
           (VNumber (current st id (getReferenceField c (toJSON this)) + 1)))).
Proof.
  intros Hnew. unfold pre_save. rewrite Hnew, host. simpl.
  pose proof (upsert_inc_result st id (getReferenceField c (toJSON this)))
    as (_ & _ & Hc).
  fold id. destruct (upsert_inc st id _) as [st' res]. simpl in *.
  by rewrite Hc.
Qed.

Lemma pre_save_frame st this (q : condition) :
  (∀ d, matches q d = true →
        matches (key id (getReferenceField c (toJSON this))) d = false) →
  filter (λ d, matches q d = true) (pre_save c st this).1
  = filter (λ d, matches q d = true) st
  ∧ find (matches q) (pre_save c st this).1 = find (matches q) st.
Proof.
  intros Hq. destruct (isNew this) eqn:Hnew.
  - rewrite pre_save_new by done. simpl. by apply upsert_inc_frame.
  - unfold pre_save. by rewrite Hnew.
Qed.

End Hook.

Lemma resave_existing c st this edits :
  isNew this = false →
  resave c st this edits
  = (st, Ok {| isNew := false;
               fields := foldl (λ f edit, edit f) (fields this) edits |}).
Proof.
  revert this. induction edits as [|edit edits IH]; intros [n f] Hn;
    simpl in *; subst n; [done|].
  unfold save, pre_save. simpl. by rewrite IH.
Qed.

(** C7.  The hook allocates only for a new document: on a document that is
    not new it changes neither the counter collection nor the document,
    whatever the host model; a saved document is no longer new, so saving it
    again, with any edits (also of the increment field), allocates nothing;
    and on the atomic store a new document does get its allocation. *)
Theorem pre_save_only_when_new c st this :
  (isNew this = false → pre_save c st this = (st, Ok this))
  ∧ (∀ st1 this1 edits,
       save c st this = (st1, Ok this1) →
       isNew this1 = false
       ∧ resave c st1 this1 edits
         = (st1,
            Ok {| isNew := false;
                  fields := foldl (λ f edit, edit f) (fields this1) edits |}))
  ∧ (counterModel c = atomic → isNew this = true →
       current (pre_save c st this).1 (opt_id (options c))
         (getReferenceField c (toJSON this))
       = (current st (opt_id (options c))
            (getReferenceField c (toJSON this)) + 1)%Z).
Proof.
  split; [|split].
  - intros Hn. unfold pre_save. by rewrite Hn.
  - intros st1 this1 edits Hs.
    assert (isNew this1 = false) as Hn.
    { unfold save in Hs. destruct (pre_save c st this) as [st' [this'|e]];
        by simplify_eq. }
    split; [done|]. by apply resave_existing.
  - intros host Hnew. rewrite pre_save_new by done. apply upsert_inc_current.
Qed.

Lemma pre_save_only_when_new_witness :
  let saved := {| isNew := false; fields := fields Example.paris |} in
  pre_save Example.inhabitants [] saved = ([], Ok saved)
  ∧ resave Example.inhabitants
      (save Example.inhabitants [] Example.paris).1
      {| isNew := false;
         fields := <["inhabitant_number" := VNumber 1]>
                     (fields Example.paris) |}
      [insert "inhabitant_number" (VNumber 7)]
    = ((save Example.inhabitants [] Example.paris).1,
       Ok {| isNew := false;
             fields := <["inhabitant_number" := VNumber 7]>
                         (<["inhabitant_number" := VNumber 1]>
                            (fields Example.paris)) |})
  ∧ current (pre_save Example.inhabitants [] Example.paris).1 "seq"
      (Some Example.FR_Paris) = 1%Z.
Proof.
  split; [|split].
  - exact (proj1 (pre_save_only_when_new Example.inhabitants []
                    {| isNew := false; fields := fields Example.paris |})
             eq_refl).
  - exact (proj2 (proj1 (proj2 (pre_save_only_when_new Example.inhabitants []
                                  Example.paris))
                    _ _ [insert "inhabitant_number" (VNumber 7)] eq_refl)).
  - exact (proj2 (proj2 (pre_save_only_when_new Example.inhabitants []
                           Example.paris)) eq_refl eq_refl).
Defined.

(** C8.  On the atomic store, a save under one [(id, reference)] pair
    leaves the counter documents of every other pair as they were, and with
    them the value the other pair stands at; in particular a global counter
    and a scoped counter never move each other's values. *)
Theorem pre_save_other_pairs c st this :
  counterModel c = atomic →
  (∀ i' r',
     (i', r') ≠ (opt_id (options c), getReferenceField c (toJSON this)) →
     filter (λ d, matches (key i' r') d = true) (pre_save c st this).1
     = filter (λ d, matches (key i' r') d = true) st
     ∧ current (pre_save c st this).1 i' r' = current st i' r')
  ∧ (∀ c' this',
       useReference c ≠ useReference c' →
       current (pre_save c st this).1 (opt_id (options c'))
         (getReferenceField c' (toJSON this'))
       = current st (opt_id (options c'))
           (getReferenceField c' (toJSON this'))).
Proof.
  intros host.
  assert (∀ i' r',
     (i', r') ≠ (opt_id (options c), getReferenceField c (toJSON this)) →
     filter (λ d, matches (key i' r') d = true) (pre_save c st this).1
     = filter (λ d, matches (key i' r') d = true) st
     ∧ current (pre_save c st this).1 i' r' = current st i' r') as Hframe.
  { intros i' r' Hne.
    destruct (pre_save_frame c host st this (key i' r')) as [H1 H2].
    - intros d. by apply key_disjoint.
    - split; [done|]. unfold current. by rewrite H2. }
  split; [done|]. intros c' this' Hmode. apply Hframe.
  intros [= _ Hr]. apply Hmode. unfold getReferenceField in Hr.
  destruct (useReference c), (useReference c'); simpl in Hr; congruence.
Qed.

Lemma pre_save_other_pairs_witness :
  current (pre_save Example.inhabitants
             (pre_save Example.global [] Example.paris).1 Example.paris).1
    "id" None = 1%Z
  ∧ current (pre_save Example.inhabitants
               (pre_save Example.inhabitants [] Example.nyc).1 Example.paris).1
      "seq" (Some Example.US_NYC) = 1%Z.
Proof.
  split.
  - exact (proj2 (pre_save_other_pairs Example.inhabitants
                    (pre_save Example.global [] Example.paris).1
                    Example.paris eq_refl)
             Example.global Example.paris ltac:(discriminate)).
  - exact (proj2 (proj1 (pre_save_other_pairs Example.inhabitants
                    (pre_save Example.inhabitants [] Example.nyc).1
                    Example.paris eq_refl)
             "seq" (Some Example.US_NYC) ltac:(discriminate))).
Defined.

(** ** Reset *)

Section Reset.

Implicit Types (st : store) (q : condition) (d : CounterDocument).

Lemma update_zero_lookup st q n :
  update_zero st q !! n
  = (λ d, if matches q d then zero d else d) <$> st !! n.
Proof. unfold update_zero. apply list_lookup_fmap. Qed.

Lemma update_zero_length st q : length (update_zero st q) = length st.
Proof. unfold update_zero. apply length_fmap. Qed.

(** Nothing matches: nothing changes. *)
Lemma update_zero_none st q :
  Forall (λ d, matches q d = false) st → update_zero st q = st.
Proof.
  unfold update_zero. induction 1 as [|d st M _ IH]; [done|].
  rewrite fmap_cons, M. by f_equal.
Qed.

(** A pair all of whose documents the condition covers stands at [0]. *)
Lemma update_zero_current st q i r :
  (∀ d, matches (key i r) d = true → matches q d = true) →
  current (update_zero st q) i r = 0%Z.
Proof.
  intros Hq. unfold current, update_zero.
  induction st as [|d st IH]; [done|]. rewrite fmap_cons. cbn [find].
  destruct (matches q d) eqn:Mq.
  - rewrite matches_zero. by destruct (matches (key i r) d).
  - destruct (matches (key i r) d) eqn:Mk; [|done].
    apply Hq in Mk. congruence.
Qed.

(** A pair none of whose documents the condition covers keeps its value. *)
Lemma update_zero_frame st q i r :
  (∀ d, matches (key i r) d = true → matches q d = false) →
  current (update_zero st q) i r = current st i r.
Proof.
  intros Hq. unfold current, update_zero.
  induction st as [|d st IH]; [done|]. rewrite fmap_cons. cbn [find].
  destruct (matches q d) eqn:Mq.
  - rewrite matches_zero. destruct (matches (key i r) d) eqn:Mk; [|done].
    apply Hq in Mk. congruence.
  - by destruct (matches (key i r) d).
Qed.

Lemma matches_id i d :
  matches {| cond_id := i; cond_reference := None |} d = true ↔ doc_id d = i.
Proof.
  unfold matches; simpl. by rewrite andb_true_r, bool_decide_eq_true.
Qed.

End Reset.

Lemma resetCounter_atomic c st id reference :
  counterModel c = atomic →
  resetCounter c st id reference
  = (update_zero st (resetCondition c id reference), Resolved tt).
Proof. intros host. unfold resetCounter. by rewrite host. Qed.

(** C4.  On the atomic store, [resetCounter(id, cb)] succeeds whatever the
    collection holds, sets every counter document of [id] to 0 and no other
    (none at all when [id] has no document), and the next new document saved
    under [id] receives 1. *)
Theorem resetCounter_without_reference c st id :
  counterModel c = atomic →
  ∃ st',
    resetCounter c st id Callback = (st', Resolved tt)
    ∧ length st' = length st
    ∧ (∀ n d, st !! n = Some d →
         st' !! n = Some (if decide (doc_id d = id) then zero d else d))
    ∧ (∀ d, d ∈ st' → doc_id d = id → doc_counter d = 0%Z)
    ∧ (Forall (λ d, doc_id d ≠ id) st → st' = st)
    ∧ (∀ c' this,
         counterModel c' = atomic → opt_id (options c') = id →
         isNew this = true →
         (pre_save c' st' this).2
         = Ok (set this (opt_incField (options c')) (VNumber 1))).
Proof.
  intros host. rewrite (resetCounter_atomic c st id Callback host).
  cbn [resetCondition].
  eexists. split; [done|].
  split; [apply update_zero_length|].
  assert (∀ d, matches {| cond_id := id; cond_reference := None |} d
               = bool_decide (doc_id d = id)) as Hm.
  { intros d. apply eq_true_iff_eq.
    by rewrite matches_id, bool_decide_eq_true. }
  split; [|split; [|split]].
  - intros n d Hn. rewrite update_zero_lookup, Hn. simpl. f_equal.
    rewrite Hm. by case_bool_decide; case_decide.
  - intros d' [n Hn]%list_elem_of_lookup Hid.
    rewrite update_zero_lookup in Hn.
    destruct (st !! n) as [d|] eqn:Hd; [|done]. simpl in Hn.
    injection Hn as Hn. rewrite Hm in Hn.
    case_bool_decide; subst d'; done.
  - intros Hst. apply update_zero_none.
    eapply Forall_impl; [exact Hst|]. intros d Hd. simpl in Hd.
    rewrite Hm. by case_bool_decide.
  - intros c' this host' Hid Hnew. rewrite pre_save_new by done. simpl.
    rewrite Hid, update_zero_current; [done|].
    intros d [E _]%matches_key. by apply matches_id.
Qed.

Lemma resetCounter_without_reference_witness :
  ∃ st',
    resetCounter Example.inhabitants
      (pre_save Example.inhabitants [] Example.paris).1 "seq" Callback
    = (st', Resolved tt)
    ∧ (pre_save Example.inhabitants st' Example.paris).2
      = Ok (set Example.paris "inhabitant_number" (VNumber 1)).
Proof.
  destruct (resetCounter_without_reference Example.inhabitants
              (pre_save Example.inhabitants [] Example.paris).1 "seq" eq_refl)
    as (st' & H1 & _ & _ & _ & _ & H2).
  exists st'. split; [exact H1|].
  exact (H2 Example.inhabitants Example.paris eq_refl eq_refl eq_refl).
Defined.

Lemma scenario_after_reset :
  let st4 :=
    (resetCounter Example.inhabitants scenario "seq"
       (Reference FR_Paris_key)).1 in
  Example.number (save Example.inhabitants st4 Example.paris)
  = Some (VNumber 1)
  ∧ current st4 "seq" (Some Example.US_NYC) = 1%Z
  ∧ Example.number (save Example.inhabitants st4 Example.nyc)
    = Some (VNumber 2).
Proof. vm_compute. done. Qed.

(** C5.  On the atomic store, [resetCounter(id, reference, cb)] sets to 0
    exactly the counter documents whose [id] is [id] and whose [reference]
    equals the key derived from the supplied mapping, and leaves every other
    counter document as it was.  In the scenario, after resetting FR/Paris
    the next FR/Paris save gets 1, and US/NYC still stands at 1 and gets 2. *)
Theorem resetCounter_with_reference c st id (reference : StringMap) :
  counterModel c = atomic →
  ∃ st',
    resetCounter c st id (Reference reference) = (st', Resolved tt)
    ∧ length st' = length st
    ∧ (∀ n d, st !! n = Some d →
         doc_id d = id → doc_reference d = getReferenceField c reference →
         st' !! n = Some (zero d))
    ∧ (∀ n d, st !! n = Some d →
         doc_id d ≠ id ∨ doc_reference d ≠ getReferenceField c reference →
         st' !! n = Some d)
    ∧ (∀ i r, (i, r) ≠ (id, getReferenceField c reference) →
         current st' i r = current st i r)
    ∧ (let st4 :=
         (resetCounter Example.inhabitants scenario "seq"
            (Reference FR_Paris_key)).1 in
       Example.number (save Example.inhabitants st4 Example.paris)
       = Some (VNumber 1)
       ∧ current st4 "seq" (Some Example.US_NYC) = 1%Z
       ∧ Example.number (save Example.inhabitants st4 Example.nyc)
         = Some (VNumber 2)).
Proof.
  intros host. rewrite (resetCounter_atomic c st id (Reference reference) host).
  cbn [resetCondition].
  set (k := getReferenceField c reference).
  exists (update_zero st (key id k)). split; [done|].
  split; [apply update_zero_length|]. split; [|split; [|split]].
  - intros n d Hn Hid Hr. rewrite update_zero_lookup, Hn. simpl.
    by rewrite (proj2 (matches_key id k d)).
  - intros n d Hn Hne. rewrite update_zero_lookup, Hn. simpl.
    by rewrite (proj2 (matches_key_false id k d)).
  - intros i r Hne. apply update_zero_frame. intros d. by apply key_disjoint.
  - exact scenario_after_reset.
Qed.

Lemma resetCounter_with_reference_witness :
  let st :=
    [{| doc_id := "seq"; doc_reference := Some Example.FR_Paris;
        doc_counter := 2 |};
     {| doc_id := "seq"; doc_reference := Some Example.US_NYC;
        doc_counter := 1 |}] in
  ∃ st',
    resetCounter Example.inhabitants st "seq" (Reference FR_Paris_key)
    = (st', Resolved tt)
    ∧ st' !! 0%nat
      = Some {| doc_id := "seq"; doc_reference := Some Example.FR_Paris;
                doc_counter := 0 |}
    ∧ st' !! 1%nat
      = Some {| doc_id := "seq"; doc_reference := Some Example.US_NYC;
                doc_counter := 1 |}.
Proof.
  intros st.
  destruct (resetCounter_with_reference Example.inhabitants st "seq"
              FR_Paris_key eq_refl) as (st' & H1 & _ & H2 & H3 & _).
  exists st'. split; [exact H1|]. split.
  - refine (H2 0%nat _ eq_refl eq_refl _). vm_compute. reflexivity.
  - refine (H3 1%nat _ eq_refl (or_intror _)). vm_compute. discriminate.
Defined.

(** ** Setup *)

(** C9.  [addCounterToSchema] looks the increment field up in the target
    schema: when it is not declared it is declared as a [Number] and nothing
    else changes; when it is declared with another type, setup fails with the
    error naming the field; when it is declared as a [Number] the schema
    stays as it is. *)
Theorem addCounterToSchema_cases c schema :
  let incField := opt_incField (options c) in
  (paths schema !! incField = None →
     ∃ schema',
       addCounterToSchema c schema = Ok schema'
       ∧ paths schema' !! incField = Some {| instance := "Number" |}
       ∧ (∀ f, f ≠ incField → paths schema' !! f = paths schema !! f)
       ∧ statics schema' = statics schema ∧ pres schema' = pres schema)
  ∧ (∀ schemaKey,
       paths schema !! incField = Some schemaKey →
       instance schemaKey ≠ "Number" →
       addCounterToSchema c schema = Err (Error (not_a_number incField))
       ∧ initialize c schema = Err (Error (not_a_number incField)))
  ∧ (∀ schemaKey,
       paths schema !! incField = Some schemaKey →
       instance schemaKey = "Number" →
       addCounterToSchema c schema = Ok schema).
Proof.
  intros incField. unfold initialize, addCounterToSchema. fold incField.
  split; [|split].
  - intros ->. eexists. split; [done|]. simpl.
    split; [apply lookup_insert_eq|]. split; [|done].
    intros f Hf. by apply lookup_insert_ne.
  - intros schemaKey -> Hne. by rewrite bool_decide_eq_true_2.
  - intros schemaKey -> He. rewrite bool_decide_eq_false_2; [done|].
    by intros Hne.
Qed.

Lemma addCounterToSchema_cases_witness :
  let plain := {| paths := ∅; statics := []; pres := [] |} in
  let text s := {| paths := {[ "inhabitant_number" := {| instance := s |} ]};
                   statics := []; pres := [] |} in
  (∃ schema', addCounterToSchema Example.inhabitants plain = Ok schema'
              ∧ paths schema' !! "inhabitant_number"
                = Some {| instance := "Number" |})
  ∧ initialize Example.inhabitants (text "String")
    = Err (Error (not_a_number "inhabitant_number"))
  ∧ addCounterToSchema Example.inhabitants (text "Number")
    = Ok (text "Number").
Proof.
  intros plain text. split; [|split].
  - destruct (proj1 (addCounterToSchema_cases Example.inhabitants plain)
                eq_refl) as (schema' & H1 & H2 & _).
    exists schema'. split; [exact H1 | exact H2].
  - exact (proj2 (proj1 (proj2 (addCounterToSchema_cases Example.inhabitants
                                  (text "String")))
                    {| instance := "String" |} eq_refl
                    ltac:(discriminate))).
  - exact (proj2 (proj2 (addCounterToSchema_cases Example.inhabitants
                           (text "Number")))
             {| instance := "Number" |} eq_refl eq_refl).
Defined.

(** When the options hold reference fields and an [id] that is left out or
    is [null], the constructor throws one of its two
    configuration errors (the one about reference fields whenever [incField]
    is usable) and the mongoose instance is returned as it was: no counter
    model has been registered; the plugin fails in the same way. *)
Theorem constructor_reference_without_id
    (toUpperCase : string → string) mongoose p fs :
  p_referenceFields p = Given fs →
  p_id p = Absent ∨ p_id p = Given None →
  ∃ message,
    constructor toUpperCase mongoose (Some p) = (mongoose, Err (Error message))
    ∧ (message = incField_mandatory ∨ message = reference_without_name)
    ∧ (truthy (spread (Some "_id") (p_incField p)) = true →
       message = reference_without_name)
    ∧ (∀ schema,
         plugin toUpperCase mongoose schema (Some p)
         = (mongoose, Err (Error message))).
Proof.
  intros Hfs Hid.
  assert (spread (Some None) (p_id p) = Some None) as Hnull.
  { by destruct Hid as [-> | ->]. }
  unfold plugin, constructor. simpl. rewrite Hfs, Hnull. simpl.
  destruct (truthy (spread (Some "_id") (p_incField p))); simpl.
  - exists reference_without_name. repeat split; auto.
  - exists incField_mandatory. repeat split; auto. done.
Qed.

Lemma constructor_reference_without_id_witness :
  ∃ message,
    constructor Example.upper Example.mongoose (Some Example.unnamed)
    = (Example.mongoose, Err (Error message))
    ∧ message = reference_without_name.
Proof.
  destruct (constructor_reference_without_id Example.upper Example.mongoose
              Example.unnamed (Several ["country"; "city"]) eq_refl
              (or_introl eq_refl)) as (message & H1 & _ & H2 & _).
  exists message. split; [exact H1 | exact (H2 eq_refl)].
Defined.

(** With an [id] the same options are accepted, and the counter model is
    registered. *)
Lemma constructor_scoped :
  constructor Example.upper Example.mongoose (Some Example.scoped)
  = ({| models := ["Counters_seq"]; driver := atomic |},
     Ok Example.inhabitants).
Proof. reflexivity. Qed.

(** An [id] property that is there and holds [undefined] replaces the
    default [null], so the guard does not fire and the name falls back to
    the increment field. *)
Lemma constructor_id_undefined :
  constructor Example.upper Example.mongoose
    (Some {| p_id := Undefined;
             p_incField := Given "inhabitant_number";
             p_referenceFields := Given (Several ["country"; "city"]);
             p_collectionName := Absent |})
  = ({| models := ["Counters_inhabitant_number"]; driver := atomic |},
     Ok {| options := {| opt_id := "inhabitant_number";
                         opt_incField := "inhabitant_number";
                         opt_referenceFields := ["country"; "city"];
                         opt_collectionName := "counters" |};
           useReference := true;
           counterModel := atomic |}).
Proof. reflexivity. Qed.

(** ** Rejections of the driver *)

(** C6, as stated, fails: a first save that runs into the duplicate-key
    rejection hands that error to its caller; nothing is retried and no value
    is assigned. *)
Lemma duplicate_key_surfaces :
  let winner := {| doc_id := "seq"; doc_reference := Some Example.FR_Paris;
                   doc_counter := 1 |} in
  findOneAndUpdate (counterModel loser) [] "seq" (Some Example.FR_Paris)
  = ([winner], Rejected duplicate_key)
  ∧ pre_save loser [] Example.paris = ([winner], Err duplicate_key)
  ∧ save loser [] Example.paris = ([winner], Err duplicate_key).
Proof. vm_compute. done. Qed.

(** C6, amended.  Whatever the host model, when the [findOneAndUpdate] of a
    new document's hook is rejected (with the duplicate-key error or any
    other) the hook does not retry: the collection is as the driver left it
    and the error goes to the caller of [save].  On the atomic store two
    saves under one pair never conflict: they share one counter document and
    receive consecutive values. *)
Theorem pre_save_rejected c st this :
  isNew this = true →
  (∀ st' err,
     findOneAndUpdate (counterModel c) st (opt_id (options c))
       (getReferenceField c (toJSON this)) = (st', Rejected err) →
     pre_save c st this = (st', Err err) ∧ save c st this = (st', Err err))
  ∧ (counterModel c = atomic →
     ∀ other,
       isNew other = true →
       getReferenceField c (toJSON other) = getReferenceField c (toJSON this) →
       let v := current st (opt_id (options c))
                  (getReferenceField c (toJSON this)) in
       let st1 := (pre_save c st this).1 in
       (pre_save c st this).2
       = Ok (set this (opt_incField (options c)) (VNumber (v + 1)))
       ∧ (pre_save c st1 other).2
         = Ok (set other (opt_incField (options c)) (VNumber (v + 2)))
       ∧ length (pre_save c st1 other).1 = length st1).
Proof.
  intros Hnew. split.
  - intros st' err Hrej. unfold save, pre_save. rewrite Hnew. simpl.
    by rewrite Hrej.
  - intros host other Hother Hsame v st1. subst st1.
    rewrite !pre_save_new by done. simpl. rewrite Hsame.
    rewrite upsert_inc_current. fold v.
    split; [done|]. split; [do 3 f_equal; lia|].
    set (i := opt_id (options c)). set (r := getReferenceField c (toJSON this)).
    assert (∀ st0, find (matches (key i r)) st0 ≠ None →
              length (upsert_inc st0 i r).1 = length st0) as Hlen.
    { induction st0 as [|d st0 IH]; simpl; [done|].
      destruct (matches (key i r) d); [done|]. intros Hf.
      specialize (IH Hf). destruct (upsert_inc st0 i r). simpl in *. lia. }
    apply Hlen. clear. induction st as [|d st IH]; simpl.
    + by rewrite (proj2 (matches_key i r _)).
    + destruct (matches (key i r) d) eqn:M; simpl.
      * by rewrite matches_inc, M.
      * destruct (upsert_inc st i r). simpl in *. by rewrite M.
Qed.

Lemma pre_save_rejected_witness :
  pre_save loser [] Example.paris
  = ([{| doc_id := "seq"; doc_reference := Some Example.FR_Paris;
         doc_counter := 1 |}], Err duplicate_key)
  ∧ (pre_save Example.inhabitants
       (pre_save Example.inhabitants [] Example.paris).1 Example.paris).2
    = Ok (set Example.paris "inhabitant_number" (VNumber 2)).
Proof.
  split.
  - exact (proj1 (proj1 (pre_save_rejected loser [] Example.paris eq_refl)
                    _ duplicate_key eq_refl)).
  - exact (proj1 (proj2 (proj2 (pre_save_rejected Example.inhabitants []
                                  Example.paris eq_refl)
                           eq_refl Example.paris eq_refl eq_refl))).
Defined.

(** ** The key that a mapping stands for *)

Section ReferenceKey.

Implicit Types (map : js_object) (f g : string) (v w : option value).
Implicit Types (document : StringMap) (fs : list string).

Lemma js_set_keys map f v g :
  g ∈ (js_set map f v).*1 ↔ g = f ∨ g ∈ map.*1.
Proof.
  induction map as [|[k w] map IH]; simpl.
  - rewrite list_elem_of_singleton, elem_of_nil. tauto.
  - case_decide as E; simpl; rewrite !elem_of_cons; [subst k|rewrite IH];
      tauto.
Qed.

Lemma js_set_NoDup map f v : NoDup map.*1 → NoDup (js_set map f v).*1.
Proof.
  induction map as [|[k w] map IH]; simpl.
  - intros _. apply NoDup_singleton.
  - rewrite NoDup_cons. intros [Hk Hmap].
    case_decide as E; simpl; apply NoDup_cons; [done|].
    split; [|by apply IH]. rewrite js_set_keys. by intros [?|?].
Qed.

Lemma js_set_elem map f v g w :
  (g, w) ∈ js_set map f v → (g = f ∧ w = v) ∨ (g, w) ∈ map.
Proof.
  induction map as [|[k u] map IH]; simpl.
  - rewrite list_elem_of_singleton. intros [= -> ->]. by left.
  - case_decide as E; rewrite !elem_of_cons.
    + intros [[= -> ->]|Hin]; [by left|]. right. by right.
    + intros [Heq|Hin]; [right; by left|].
      destruct (IH Hin) as [?|?]; [by left|]. right. by right.
Qed.

(** The properties of the derived object are the configured fields, once
    each, and each holds what the document holds for that field. *)
Lemma derived_key document fs map :
  let k := foldl (λ map f, js_set map f (document !! f)) map fs in
  (∀ g, g ∈ k.*1 ↔ g ∈ map.*1 ∨ g ∈ fs)
  ∧ (NoDup map.*1 → NoDup k.*1)
  ∧ ((∀ g w, (g, w) ∈ map → w = document !! g) →
     ∀ g w, (g, w) ∈ k → w = document !! g).
Proof.
  revert map. induction fs as [|f fs IH]; intros map; simpl.
  - split; [|done]. intros g. rewrite elem_of_nil. tauto.
  - destruct (IH (js_set map f (document !! f))) as (IH1 & IH2 & IH3).
    split; [|split].
    + intros g. rewrite IH1, js_set_keys, elem_of_cons. tauto.
    + intros Hmap. by apply IH2, js_set_NoDup.
    + intros Hmap. apply IH3. intros g w [[-> ->]|Hin]%js_set_elem; auto.
Qed.

(** Only the configured fields of the document are read. *)
Lemma derived_key_ext document document' fs map :
  (∀ f, f ∈ fs → document' !! f = document !! f) →
  foldl (λ map f, js_set map f (document' !! f)) map fs
  = foldl (λ map f, js_set map f (document !! f)) map fs.
Proof.
  revert map. induction fs as [|f fs IH]; intros map Hfs; simpl; [done|].
  rewrite Hfs by (by left). apply IH. intros g Hg. apply Hfs. by right.
Qed.

Lemma complete_spec (k : js_object) g :
  complete (Some k) = true → (g, None) ∉ k.
Proof.
  simpl. intros Hk Hin. rewrite forallb_forall in Hk.
  specialize (Hk (g, None)). rewrite <- list_elem_of_In in Hk.
  by specialize (Hk Hin).
Qed.

End ReferenceKey.

(** C10, as stated, fails: with [country] and [city] configured, a mapping
    that supplies [country] only selects, and resets, the counter document
    that a new document without a city has created. *)
Lemma partial_reference_resets :
  let st := (pre_save Example.inhabitants [] Example.stateless).1 in
  let reference : StringMap := <["country" := VString "FR"]> ∅ in
  let d v := {| doc_id := "seq";
                doc_reference :=
                  Some [("country", Some (VString "FR")); ("city", None)];
                doc_counter := v |} in
  reference !! "city" = None
  ∧ st = [d 1%Z]
  ∧ selected Example.inhabitants st "seq" (Reference reference) = [d 1%Z]
  ∧ resetCounter Example.inhabitants st "seq" (Reference reference)
    = ([d 0%Z], Resolved tt).
Proof. vm_compute. done. Qed.

(** C10, amended.  For a scoped counter [resetCounter] derives its key from
    the supplied mapping over the configured fields and nothing else: the
    key has exactly those fields, once each, fields that the mapping lacks
    hold [undefined], and what the mapping holds elsewhere is ignored.  On
    the atomic store the documents reset are those of [id] whose reference
    equals that key.  So a mapping that lacks a configured field resets no
    document as long as the stored references of [id] hold a value for each
    of their fields. *)
Theorem resetCounter_exact_key c st id (reference : StringMap) :
  useReference c = true →
  counterModel c = atomic →
  let fs := opt_referenceFields (options c) in
  ∃ k,
    getReferenceField c reference = Some k
    ∧ (∀ f, f ∈ k.*1 ↔ f ∈ fs)
    ∧ NoDup k.*1
    ∧ (∀ f v, (f, v) ∈ k → v = reference !! f)
    ∧ (∀ f, f ∈ fs → reference !! f = None → (f, None) ∈ k)
    ∧ (∀ reference' : StringMap,
         (∀ f, f ∈ fs → reference' !! f = reference !! f) →
         getReferenceField c reference' = Some k)
    ∧ (∀ n d, st !! n = Some d →
         (resetCounter c st id (Reference reference)).1 !! n
         = Some (if decide (doc_id d = id ∧ doc_reference d = Some k)
                 then zero d else d))
    ∧ (∀ f, f ∈ fs → reference !! f = None →
         Forall (λ d, doc_id d = id → complete (doc_reference d) = true) st →
         selected c st id (Reference reference) = []
         ∧ resetCounter c st id (Reference reference) = (st, Resolved tt)).
Proof.
  intros Hscoped host fs.
  unfold getReferenceField. rewrite Hscoped. simpl. fold fs.
  destruct (derived_key reference fs []) as (Hkeys & Hdup & Hvals).
  set (k := foldl (λ map f, js_set map f (reference !! f)) [] fs) in *.
  assert (∀ f v, (f, v) ∈ k → v = reference !! f) as Hvals'.
  { apply Hvals. intros g w Hin. by apply elem_of_nil in Hin. }
  assert (∀ f, f ∈ fs → reference !! f = None → (f, None) ∈ k) as Hmissing.
  { intros f Hf Hnone.
    assert (f ∈ k.*1) as Hin by (apply Hkeys; by right).
    apply list_elem_of_fmap in Hin as ([g w] & -> & Hin). simpl in *.
    pose proof (Hvals' _ _ Hin) as Hw. rewrite Hnone in Hw. by subst w. }
  assert (getReferenceField c reference = Some k) as Hk.
  { unfold getReferenceField. by rewrite Hscoped. }
  exists k. split; [done|]. split.
  { intros f. rewrite Hkeys. rewrite elem_of_nil. tauto. }
  split; [apply Hdup, NoDup_nil_2|]. split; [done|]. split; [done|].
  split.
  { intros reference' Hsame. f_equal. by apply derived_key_ext. }
  rewrite (resetCounter_atomic c st id (Reference reference) host).
  unfold selected. cbn [resetCondition fst]. rewrite Hk.
  change {| cond_id := id; cond_reference := Some (Some k) |}
    with (key id (Some k)).
  split.
  - intros n d Hn. rewrite update_zero_lookup, Hn. simpl. f_equal.
    destruct (matches (key id (Some k)) d) eqn:M; case_decide as E; try done.
    + apply matches_key in M. done.
    + apply matches_key in E. congruence.
  - intros f Hf Hnone Hst.
    assert (Forall (λ d, matches (key id (Some k)) d = false) st) as Hno.
    { eapply Forall_impl; [exact Hst|]. intros d Hd. simpl in Hd.
      apply not_true_iff_false. intros [Hid Hr]%matches_key.
      specialize (Hd Hid). rewrite Hr in Hd.
      by apply (complete_spec k f Hd), Hmissing. }
    split; [|by rewrite update_zero_none].
    clear -Hno. induction Hno as [|d st M _ IH]; [done|].
    rewrite filter_cons. case_decide; [congruence|done].
Qed.

Lemma resetCounter_exact_key_witness :
  let reference : StringMap := <["country" := VString "FR"]> ∅ in
  ∃ k,
    getReferenceField Example.inhabitants reference = Some k
    ∧ ("city", None) ∈ k
    ∧ resetCounter Example.inhabitants scenario "seq" (Reference reference)
      = (scenario, Resolved tt).
Proof.
  intros reference.
  destruct (resetCounter_exact_key Example.inhabitants scenario "seq"
              reference eq_refl eq_refl)
    as (k & H1 & _ & _ & _ & H2 & _ & _ & H3).
  exists k. split; [exact H1|]. split.
  - apply (H2 "city"); [|reflexivity]. vm_compute.
    apply list_elem_of_In. right. left. reflexivity.
  - apply (H3 "city"); [|reflexivity|].
    + vm_compute. apply list_elem_of_In. right. left. reflexivity.
    + vm_compute. repeat constructor.
Defined.

(** ** Saves in flight *)

Section Concurrent.

Variable c : MongooseCounter.
Hypothesis host : counterModel c = atomic.
Variable r : option js_object.

Let id := opt_id (options c).
Let incField := opt_incField (options c).

(** One hook alone is [start] followed by [serve]. *)
Lemma pre_save_start_serve st this :
  isNew this = true →
  serve c (st, [start c this]) 0
  = Some ((pre_save c st this).1, [Finished (pre_save c st this).2]).
Proof.
  intros Hnew. unfold serve, start, pre_save. rewrite Hnew. simpl.
  by destruct (findOneAndUpdate _ _ _ _).
Qed.

(** What is read back is what was written. *)
Lemma allocated_set this v :
  allocated c (Finished (Ok (set this incField (VNumber v)))) = Some v.
Proof.
  unfold allocated, set. simpl. fold incField. by rewrite lookup_insert_eq.
Qed.

End Concurrent.

Lemma following_NoDup v n : NoDup (following v n).
Proof.
  unfold following. apply NoDup_fmap_2; [|apply NoDup_seq].
  intros k1 k2. lia.
Qed.

Lemma following_elem v n x :
  x ∈ following v n ↔ (v < x ≤ v + Z.of_nat n)%Z.
Proof.
  unfold following. rewrite list_elem_of_fmap. split.
  - intros (k & -> & Hk%elem_of_seq). lia.
  - intros Hx. exists (Z.to_nat (x - v - 1)). split; [lia|].
    apply elem_of_seq. lia.
Qed.

(** Values handed out position by position along a schedule are, as a
    whole, the values of the positions. *)
Lemma scheduled_values (values : list Z) (schedule : list nat) (h : nat → Z) :
  schedule ≡ₚ seq 0 (length values) →
  (∀ k n, schedule !! k = Some n → values !! n = Some (h k)) →
  values ≡ₚ h <$> seq 0 (length values).
Proof.
  intros Hperm Hval.
  pose (g := λ n, default 0%Z (values !! n)).
  assert (values = g <$> seq 0 (length values)) as Hg.
  { apply list_eq. intros n. rewrite list_lookup_fmap.
    destruct (decide (n < length values)) as [Hlt|Hge].
    - rewrite lookup_seq_lt by done. simpl. unfold g.
      destruct (values !! n) eqn:E; [done|].
      apply lookup_ge_None in E. lia.
    - rewrite lookup_seq_ge by lia. apply lookup_ge_None. lia. }
  assert (g <$> schedule = h <$> seq 0 (length values)) as Hh.
  { apply list_eq. intros k. rewrite !list_lookup_fmap.
    pose proof (Permutation_length Hperm) as Hlen. rewrite length_seq in Hlen.
    destruct (schedule !! k) as [n|] eqn:E; simpl.
    - rewrite lookup_seq_lt by (apply lookup_lt_Some in E; lia). simpl.
      unfold g. by rewrite (Hval _ _ E).
    - apply lookup_ge_None in E. by rewrite lookup_seq_ge by lia. }
  transitivity (g <$> schedule); [|by rewrite Hh].
  rewrite Hperm. by rewrite <- Hg.
Qed.

(** ** The constructor *)

(** X1.  A counter that the constructor returns has a non-empty increment
    field and a non-empty id; it is scoped exactly when reference fields were
    given, and a global counter refers to its increment field alone; its
    model is the one mongoose hands out, registered under a name that was
    free, and nothing else about the mongoose instance has changed. *)
Theorem constructor_ok (toUpperCase : string → string) mongoose opts
    mongoose' c :
  constructor toUpperCase mongoose opts = (mongoose', Ok c) →
  let p := default no_options opts in
  let name := modelName toUpperCase (opt_collectionName (options c))
                (opt_id (options c)) in
  opt_incField (options c) ≠ EmptyString
  ∧ opt_id (options c) ≠ EmptyString
  ∧ spread (Some "_id") (p_incField p) = Some (opt_incField (options c))
  ∧ spread (Some "counters") (p_collectionName p)
    = Some (opt_collectionName (options c))
  ∧ (useReference c = true ↔ ∃ fs, p_referenceFields p = Given fs)
  ∧ (useReference c = false →
     opt_referenceFields (options c) = [opt_incField (options c)])
  ∧ (∀ fs, p_referenceFields p = Given (Several fs) →
     opt_referenceFields (options c) = fs)
  ∧ (∀ f, p_referenceFields p = Given (Single f) →
     opt_referenceFields (options c) = [f])
  ∧ counterModel c = driver mongoose
  ∧ (name ∉ models mongoose)
  ∧ mongoose' = {| models := name :: models mongoose;
                   driver := driver mongoose |}.
Proof.
  intros H p name. subst p name.
  unfold constructor, createCounterModel in H. fold no_options in H.
  destruct (default no_options opts) as [pid pinc pref pcoll]. simpl in *.
  destruct (spread (Some "_id") pinc) as [incField|] eqn:Hinc; simpl in H;
    [|done].
  case_bool_decide as Hne; simpl in H; [done|].
  destruct (spread (Some "counters") pcoll) as [coll|] eqn:Hcoll;
    destruct pref as [| |[f|fs]]; simpl in H;
    repeat (case_match; simplify_eq/=);
    repeat split; try done; try (by eexists); try (by intros [? ?]);
    try (by intros ? [=]); try (by intros ? [= ->]);
    first
      [ match goal with
        | H : bool_decide _ = false |- _ =>
            by apply bool_decide_eq_false in H
        end
      | match goal with
        | H : truthy ?o = true |- default _ ?o ≠ _ =>
            destruct o; simpl in H;
              [by apply negb_true_iff, bool_decide_eq_false in H|done]
        end ].
Qed.

Lemma constructor_ok_witness :
  opt_id (options Example.inhabitants) ≠ EmptyString
  ∧ useReference Example.inhabitants = true
  ∧ "Counters_seq" ∉ models Example.mongoose.
Proof.
  destruct (constructor_ok Example.upper Example.mongoose
              (Some Example.scoped) _ Example.inhabitants eq_refl)
    as (_ & H1 & _ & _ & H2 & _ & _ & _ & _ & H3 & _).
  split; [exact H1|]. split; [|exact H3].
  apply H2. by eexists.
Defined.

(** X2.  A constructor that throws has registered nothing, and throws for
    one of four reasons: an increment field that is [undefined] or empty;
    reference fields with an id that is [null]; a collection name that is
    [undefined]; a model name that is already taken. *)
Theorem constructor_err (toUpperCase : string → string) mongoose opts
    mongoose' e :
  constructor toUpperCase mongoose opts = (mongoose', Err e) →
  let p := default no_options opts in
  mongoose' = mongoose
  ∧ ((e = Error incField_mandatory
      ∧ truthy (spread (Some "_id") (p_incField p)) = false)
     ∨ (e = Error reference_without_name
        ∧ truthy (spread (Some "_id") (p_incField p)) = true
        ∧ (∃ fs, p_referenceFields p = Given fs)
        ∧ spread (Some None) (p_id p) = Some None)
     ∨ (e = TypeError
        ∧ spread (Some "counters") (p_collectionName p) = None)
     ∨ (∃ name, e = OverwriteModelError name ∧ name ∈ models mongoose)).
Proof.
  intros H p. subst p.
  unfold constructor, createCounterModel in H. fold no_options in H.
  destruct (default no_options opts) as [pid pinc pref pcoll]. simpl in *.
  destruct (truthy (spread (Some "_id") pinc)) eqn:Hinc; simpl in H;
    [|simplify_eq; split; [done|]; by left].
  destruct (spread (Some "counters") pcoll) as [coll|] eqn:Hcoll;
    destruct pref as [| |[f|fs]]; simpl in H;
    repeat (case_match; simplify_eq/=); simplify_eq/=; (split; [done|]);
    first
      [ by (right; right; left)
      | right; left; repeat split; [by eexists|];
        match goal with
        | H : bool_decide (_ = Some None) = true |- _ =>
            by apply bool_decide_eq_true in H
        end
      | right; right; right; eexists; split; [done|];
        match goal with
        | H : bool_decide (_ ∈ _) = true |- _ =>
            by apply bool_decide_eq_true in H
        end ].
Qed.

Lemma constructor_err_witness :
  let mongoose := {| models := ["Counters_seq"]; driver := atomic |} in
  ∃ e, constructor Example.upper mongoose (Some Example.scoped)
       = (mongoose, Err e).
Proof.
  intros mongoose.
  destruct (constructor Example.upper mongoose (Some Example.scoped))
    as [mongoose' [c|e]] eqn:H; [discriminate H|].
  exists e. by rewrite (proj1 (constructor_err _ _ _ _ _ H)).
Defined.

(** X3.  The id of a constructed counter is the [id] option when that is a
    non-empty string, and the increment field in every other case ([id]
    left out, [undefined], [null] or empty). *)
Theorem constructor_id (toUpperCase : string → string) mongoose opts
    mongoose' c :
  constructor toUpperCase mongoose opts = (mongoose', Ok c) →
  opt_id (options c)
  = match p_id (default no_options opts) with
    | Given (Some id) =>
        if decide (id = EmptyString) then opt_incField (options c) else id
    | _ => opt_incField (options c)
    end.
Proof.
  intros H.
  unfold constructor, createCounterModel in H. fold no_options in H.
  destruct (default no_options opts) as [pid pinc pref pcoll]. simpl in *.
  destruct (truthy (spread (Some "_id") pinc)); simpl in H; [|done].
  destruct (spread (Some "counters") pcoll) as [coll|]; [|destruct
    (spread None pref) as [[]|]; simpl in H; repeat case_match;
    by simplify_eq/=].
  assert (∀ incField,
            (if truthy (mjoin (spread (Some None) pid))
             then default EmptyString (mjoin (spread (Some None) pid))
             else incField)
            = match pid with
              | Given (Some id) =>
                  if decide (id = EmptyString) then incField else id
              | _ => incField
              end) as Hid.
  { clear H. intros incField. destruct pid as [| |[id|]]; simpl; try done.
    case_bool_decide; simpl; by case_decide. }
  rewrite <- (Hid (opt_incField (options c))). clear Hid.
  destruct (spread None pref) as [[]|]; simpl in H;
    destruct (bool_decide (spread (Some None) pid = Some None));
    simpl in H; try done;
    destruct (bool_decide (_ ∈ models mongoose)); by simplify_eq/=.
Qed.

Lemma constructor_id_witness :
  let opts := Some {| p_id := Given (Some EmptyString);
                      p_incField := Given "inhabitant_number";
                      p_referenceFields := Given (Single "country");
                      p_collectionName := Absent |} in
  ∃ mongoose' c,
    constructor Example.upper Example.mongoose opts = (mongoose', Ok c)
    ∧ opt_id (options c) = "inhabitant_number"
    ∧ opt_referenceFields (options c) = ["country"].
Proof.
  intros opts.
  destruct (constructor Example.upper Example.mongoose opts)
    as [mongoose' [c|e]] eqn:H; [|discriminate H].
  exists mongoose', c. split; [reflexivity|].
  pose proof (constructor_id Example.upper Example.mongoose opts _ _ H) as Hid.
  injection H as <- <-. split; [exact Hid | reflexivity].
Defined.

(** X4.  In one collection, counters with different ids get different
    model names. *)
Theorem modelName_inj (toUpperCase : string → string) collectionName id1 id2 :
  modelName toUpperCase collectionName id1
  = modelName toUpperCase collectionName id2 →
  id1 = id2.
Proof.
  unfold modelName. intros H.
  assert (∀ a b c : string, a +:+ b = a +:+ c → b = c) as Hcancel.
  { induction a as [|x a IH]; simpl; intros b c' Hbc; [done|].
    injection Hbc as Hbc. by apply IH. }
  apply Hcancel, Hcancel in H. by apply (Hcancel "_") in H.
Qed.

Lemma modelName_inj_witness :
  modelName Example.upper "counters" "seq" = "Counters_seq" ∧ "seq" = "seq".
Proof.
  split; [reflexivity|].
  exact (modelName_inj Example.upper "counters" "seq" "seq" eq_refl).
Defined.

(** ** Reference keys *)

Lemma js_get_set map f v g :
  js_get (js_set map f v) g = if decide (f = g) then v else js_get map g.
Proof.
  induction map as [|[k w] map IH]; simpl.
  - by case_decide.
  - destruct (decide (k = f)) as [->|Hkf]; simpl.
    + by case_decide.
    + rewrite IH. destruct (decide (k = g)) as [->|Hkg]; [|done].
      by rewrite decide_False by congruence.
Qed.

Lemma js_get_derived (document : StringMap) fs map g :
  js_get (foldl (λ map f, js_set map f (document !! f)) map fs) g
  = if decide (g ∈ fs) then document !! g else js_get map g.
Proof.
  revert map. induction fs as [|f fs IH]; intros map; simpl.
  - done.
  - rewrite IH, js_get_set.
    destruct (decide (g ∈ fs)) as [Hin|Hout].
    + rewrite decide_True; [done|]. by right.
    + destruct (decide (f = g)) as [->|Hne].
      * rewrite decide_True; [done|]. by left.
      * rewrite decide_False; [done|].
        intros [->|Hin]%elem_of_cons; done.
Qed.

(** Same key, same configured fields. *)
Lemma getReferenceField_same c (d1 d2 : StringMap) :
  useReference c = true →
  getReferenceField c d1 = getReferenceField c d2
  ↔ ∀ f, f ∈ opt_referenceFields (options c) → d1 !! f = d2 !! f.
Proof.
  unfold getReferenceField. intros ->. simpl. split.
  - intros [= Hk] f Hf.
    pose proof (js_get_derived d1 (opt_referenceFields (options c)) [] f)
      as H1.
    pose proof (js_get_derived d2 (opt_referenceFields (options c)) [] f)
      as H2.
    rewrite decide_True in H1, H2 by done. by rewrite <- H1, <- H2, Hk.
  - intros Hsame. f_equal. by apply derived_key_ext.
Qed.

(** X5.  A global counter derives [null] from every document.  For a
    scoped counter, reading a configured field back from the derived key
    gives what the document holds for it, a field that is not configured
    reads as [undefined], and two documents get the same key exactly when
    they agree on every configured field. *)
Theorem getReferenceField_agree c (d1 d2 : StringMap) :
  (useReference c = false → getReferenceField c d1 = None)
  ∧ (useReference c = true →
     ∃ k, getReferenceField c d1 = Some k
          ∧ (∀ f, js_get k f
                  = if decide (f ∈ opt_referenceFields (options c))
                    then d1 !! f else None)
          ∧ (getReferenceField c d1 = getReferenceField c d2
             ↔ ∀ f, f ∈ opt_referenceFields (options c) → d1 !! f = d2 !! f)).
Proof.
  split.
  - unfold getReferenceField. by intros ->.
  - intros Hmode. pose proof (getReferenceField_same c d1 d2 Hmode) as Hiff.
    unfold getReferenceField in *. rewrite Hmode in *. simpl in *.
    eexists. split; [done|]. split; [|done].
    intros f. by rewrite js_get_derived.
Qed.

Lemma getReferenceField_agree_witness :
  getReferenceField Example.global (toJSON Example.paris) = None
  ∧ ∃ k, getReferenceField Example.inhabitants (toJSON Example.paris) = Some k
         ∧ js_get k "city" = Some (VString "Paris")
         ∧ js_get k "name" = None.
Proof.
  split.
  - exact (proj1 (getReferenceField_agree Example.global
                    (toJSON Example.paris) ∅) eq_refl).
  - destruct (proj2 (getReferenceField_agree Example.inhabitants
                       (toJSON Example.paris) ∅) eq_refl)
      as (k & H1 & H2 & _).
    exists k. split; [exact H1|]. split.
    + rewrite (H2 "city"). reflexivity.
    + rewrite (H2 "name"). reflexivity.
Defined.

(** X6.  Whatever the host model, the hook treats alike two new documents
    that agree on the configured reference fields (any two new documents,
    for a global counter): the same request reaches the driver, so the
    collection ends up the same and both hooks continue from the same
    answer. *)
Theorem pre_save_reference_only c st this that :
  isNew this = true → isNew that = true →
  (useReference c = true →
   ∀ f, f ∈ opt_referenceFields (options c) →
        fields this !! f = fields that !! f) →
  ∃ st' res,
    pre_save c st this = (st', pre_save_settled c this res)
    ∧ pre_save c st that = (st', pre_save_settled c that res).
Proof.
  intros Hthis Hthat Hsame.
  assert (getReferenceField c (toJSON this) = getReferenceField c (toJSON that))
    as Hkey.
  { destruct (useReference c) eqn:Hmode.
    - apply getReferenceField_same; [done|]. by apply Hsame.
    - unfold getReferenceField. by rewrite Hmode. }
  unfold pre_save. rewrite Hthis, Hthat, Hkey. simpl.
  destruct (findOneAndUpdate _ _ _ _) as [st' res]. by exists st', res.
Qed.

Lemma pre_save_reference_only_witness :
  let renamed :=
    {| isNew := true;
       fields := <["name" := VString "Zoe"]> (fields Example.paris) |} in
  ∃ st' res,
    pre_save Example.inhabitants scenario Example.paris
    = (st', pre_save_settled Example.inhabitants Example.paris res)
    ∧ pre_save Example.inhabitants scenario renamed
      = (st', pre_save_settled Example.inhabitants renamed res).
Proof.
  intros renamed.
  apply (pre_save_reference_only Example.inhabitants scenario
           Example.paris renamed eq_refl eq_refl).
  intros _ f Hf.
  change (fields renamed)
    with (<["name" := VString "Zoe"]> (fields Example.paris)).
  symmetry. apply lookup_insert_ne. intros <-.
  change (opt_referenceFields (options Example.inhabitants))
    with ["country"; "city"] in Hf.
  repeat (apply elem_of_cons in Hf as [Hf|Hf]; [discriminate Hf|]).
  by apply elem_of_nil in Hf.
Defined.

(** ** Setup of the target schema *)

(** What a successful [initialize] has done. *)
Lemma initialize_inv c schema schema' :
  initialize c schema = Ok schema' →
  (∃ schemaKey, paths schema' !! opt_incField (options c) = Some schemaKey
                ∧ instance schemaKey = "Number")
  ∧ (∀ f, f ≠ opt_incField (options c) →
          paths schema' !! f = paths schema !! f)
  ∧ statics schema' = (if decide ("resetCounter" ∈ statics schema)
                       then statics schema
                       else "resetCounter" :: statics schema)
  ∧ pres schema' = "save" :: pres schema.
Proof.
  unfold initialize, addCounterToSchema.
  destruct (paths schema !! opt_incField (options c)) as [[inst]|] eqn:Hpath;
    simpl.
  - case_bool_decide as Hinst; simpl; [done|].
    intros [= <-]. simpl. rewrite Hpath. by repeat split; eauto.
  - intros [= <-]. simpl. rewrite lookup_insert_eq.
    repeat split; eauto. intros f Hf. by rewrite lookup_insert_ne.
Qed.

(** A declared field of another type stops [initialize]. *)
Lemma initialize_not_a_number c schema schemaKey :
  paths schema !! opt_incField (options c) = Some schemaKey →
  instance schemaKey ≠ "Number" →
  initialize c schema = Err (Error (not_a_number (opt_incField (options c)))).
Proof.
  intros Hpath Hinst. unfold initialize, addCounterToSchema.
  by rewrite Hpath, bool_decide_eq_true_2.
Qed.

(** X7.  [initialize] succeeds exactly when the increment field is not yet
    declared or is declared as a [Number]; afterwards the field is a
    [Number] path, the other paths are as before, one [save] hook has been
    added in front of the others, and the statics are the former names
    together with [resetCounter]: the list is as before when
    [resetCounter] was a static already, and one longer when it was not. *)
Theorem initialize_ok c schema :
  let incField := opt_incField (options c) in
  ((∃ schema', initialize c schema = Ok schema')
   ↔ ∀ schemaKey, paths schema !! incField = Some schemaKey →
                  instance schemaKey = "Number")
  ∧ (∀ schema',
       initialize c schema = Ok schema' →
       (∃ schemaKey, paths schema' !! incField = Some schemaKey
                     ∧ instance schemaKey = "Number")
       ∧ (∀ f, f ≠ incField → paths schema' !! f = paths schema !! f)
       ∧ pres schema' = "save" :: pres schema
       ∧ (∀ name, name ∈ statics schema'
                  ↔ name = "resetCounter" ∨ name ∈ statics schema)
       ∧ ("resetCounter" ∈ statics schema →
          statics schema' = statics schema)
       ∧ ("resetCounter" ∉ statics schema →
          statics schema' = "resetCounter" :: statics schema)).
Proof.
  intros incField. split.
  - split.
    + intros [schema' H] schemaKey Hpath.
      destruct (decide (instance schemaKey = "Number")) as [|Hne]; [done|].
      by rewrite (initialize_not_a_number c schema schemaKey Hpath Hne) in H.
    + intros Hnum. unfold initialize, addCounterToSchema. fold incField.
      destruct (paths schema !! incField) as [schemaKey|]; [|by eexists].
      rewrite bool_decide_eq_false_2; [by eexists|].
      intros Hne. by apply Hne, Hnum.
  - intros schema' H.
    destruct (initialize_inv c schema schema' H)
      as (Hpath & Hother & Hstatics & Hpres).
    split; [done|]. split; [done|]. split; [done|].
    rewrite Hstatics. case_decide as Hin.
    + split; [|done]. intros name. split; [by right|].
      by intros [->|?].
    + split; [|done]. intros name. by rewrite elem_of_cons.
Qed.

Lemma initialize_ok_witness :
  let schema := {| paths := {[ "name" := {| instance := "String" |} ]};
                   statics := ["resetCounter"]; pres := [] |} in
  ∃ schema',
    initialize Example.inhabitants schema = Ok schema'
    ∧ paths schema' !! "name" = Some {| instance := "String" |}
    ∧ pres schema' = ["save"]
    ∧ statics schema' = ["resetCounter"].
Proof.
  intros schema.
  destruct (initialize Example.inhabitants schema) as [schema'|e] eqn:H;
    [|discriminate H].
  exists schema'. split; [reflexivity|].
  destruct (proj2 (initialize_ok Example.inhabitants schema) schema' H)
    as (_ & H1 & H2 & _ & H3 & _).
  split; [rewrite H1; [reflexivity|discriminate]|].
  split; [exact H2|]. apply H3. by left.
Defined.

(** X8.  A schema that has been initialized can be initialized again for
    the same increment field: the paths stay as they are, a second [save]
    hook is registered, and the statics stay the same names, [resetCounter]
    among them once more being assigned and not added. *)
Theorem initialize_twice c c' schema schema1 :
  opt_incField (options c') = opt_incField (options c) →
  initialize c schema = Ok schema1 →
  ∃ schema2,
    initialize c' schema1 = Ok schema2
    ∧ paths schema2 = paths schema1
    ∧ pres schema2 = "save" :: "save" :: pres schema
    ∧ statics schema2 = statics schema1
    ∧ "resetCounter" ∈ statics schema1.
Proof.
  intros Hsame H1.
  destruct (initialize_inv c schema schema1 H1)
    as ((schemaKey & Hpath & Hinst) & _ & Hstatics & Hpres).
  assert ("resetCounter" ∈ statics schema1) as Hin.
  { rewrite Hstatics. case_decide; [done|]. by left. }
  unfold initialize, addCounterToSchema. rewrite Hsame, Hpath.
  rewrite bool_decide_eq_false_2 by (by intros ?).
  eexists. split; [done|]. simpl. rewrite Hpres.
  by rewrite decide_True.
Qed.

Lemma initialize_twice_witness :
  let schema := {| paths := ∅; statics := []; pres := [] |} in
  ∃ schema1 schema2,
    initialize Example.inhabitants schema = Ok schema1
    ∧ initialize Example.inhabitants schema1 = Ok schema2
    ∧ pres schema2 = ["save"; "save"]
    ∧ statics schema2 = ["resetCounter"].
Proof.
  intros schema.
  destruct (initialize Example.inhabitants schema) as [schema1|e] eqn:H;
    [|discriminate H].
  destruct (initialize_twice Example.inhabitants Example.inhabitants
              schema schema1 eq_refl H) as (schema2 & H1 & _ & H2 & H3 & _).
  exists schema1, schema2. split; [reflexivity|]. split; [exact H1|].
  split; [exact H2|]. rewrite H3. injection H as <-. reflexivity.
Defined.

(** X9.  The plugin constructs the counter before it looks at the schema:
    it succeeds exactly when both the constructor and [initialize] do, and
    when the increment field is declared with another type it fails with
    the schema error while the counter model stays registered. *)
Theorem plugin_order (toUpperCase : string → string) mongoose schema opts
    mongoose' c :
  constructor toUpperCase mongoose opts = (mongoose', Ok c) →
  (∀ schema',
     initialize c schema = Ok schema' →
     plugin toUpperCase mongoose schema opts = (mongoose', Ok (c, schema')))
  ∧ (∀ schemaKey,
       paths schema !! opt_incField (options c) = Some schemaKey →
       instance schemaKey ≠ "Number" →
       plugin toUpperCase mongoose schema opts
       = (mongoose', Err (Error (not_a_number (opt_incField (options c)))))
       ∧ length (models mongoose') = S (length (models mongoose))).
Proof.
  intros Hc. unfold plugin. rewrite Hc. split.
  - by intros schema' ->.
  - intros schemaKey Hpath Hinst.
    rewrite (initialize_not_a_number c schema schemaKey Hpath Hinst).
    split; [done|]. clear -Hc.
    unfold constructor, createCounterModel in Hc.
    repeat case_match; by simplify_eq/=.
Qed.

Lemma plugin_order_witness :
  let schema :=
    {| paths := {[ "inhabitant_number" := {| instance := "String" |} ]};
       statics := []; pres := [] |} in
  plugin Example.upper Example.mongoose schema (Some Example.scoped)
  = ({| models := ["Counters_seq"]; driver := atomic |},
     Err (Error (not_a_number "inhabitant_number"))).
Proof.
  intros schema.
  exact (proj1 (proj2 (plugin_order Example.upper Example.mongoose schema
                         (Some Example.scoped) _ Example.inhabitants eq_refl)
                  {| instance := "String" |} eq_refl ltac:(discriminate))).
Defined.

(** ** The collection over time *)

Section Collection.

Implicit Types (st : store) (i : string) (r : option js_object).
Implicit Types (d : CounterDocument) (q : condition).

Lemma matches_pair i r d : matches (key i r) d = true ↔ pair d = (i, r).
Proof.
  rewrite matches_key. unfold pair.
  split; [by intros [-> ->]|by intros [= -> ->]].
Qed.

(** The upsert keeps every document's pair and appends at most one. *)
Lemma upsert_inc_pairs st i r :
  (((i, r) ∈ pair <$> st)
   ∧ pair <$> (upsert_inc st i r).1 = pair <$> st)
  ∨ (((i, r) ∉ pair <$> st)
     ∧ pair <$> (upsert_inc st i r).1 = (pair <$> st) ++ [(i, r)]).
Proof.
  induction st as [|d st IH]; csimpl.
  - right. split; [apply not_elem_of_nil|done].
  - destruct (matches (key i r) d) eqn:M; csimpl.
    + left. apply matches_pair in M. split; [|done].
      rewrite <- M. by left.
    + assert (pair d ≠ (i, r)) as Hne.
      { intros E%matches_pair. congruence. }
      destruct (upsert_inc st i r) as [st' res]. csimpl in *.
      destruct IH as [[Hin ->]|[Hout ->]]; [left|right]; split; try done.
      * by right.
      * intros [E|Hin]%elem_of_cons; [by apply Hne|done].
Qed.

Lemma upsert_inc_nonneg st i r :
  Forall (λ d, (0 ≤ doc_counter d)%Z) st →
  Forall (λ d, (0 ≤ doc_counter d)%Z) (upsert_inc st i r).1.
Proof.
  induction 1 as [|d st Hd Hst IH]; simpl.
  - by repeat constructor.
  - destruct (matches (key i r) d); simpl.
    + constructor; [simpl; lia|done].
    + destruct (upsert_inc st i r) as [st' res]. by constructor.
Qed.

Lemma update_zero_pairs st q : pair <$> update_zero st q = pair <$> st.
Proof.
  unfold update_zero. rewrite <- list_fmap_compose.
  apply list_fmap_ext. intros n d _. simpl. by destruct (matches q d).
Qed.

Lemma update_zero_nonneg st q :
  Forall (λ d, (0 ≤ doc_counter d)%Z) st →
  Forall (λ d, (0 ≤ doc_counter d)%Z) (update_zero st q).
Proof.
  unfold update_zero. intros H. apply Forall_fmap.
  eapply Forall_impl; [exact H|]. intros d Hd. simpl.
  by destruct (matches q d).
Qed.

(** One condition covering another: the wider reset absorbs the narrower. *)
Lemma update_zero_absorb st q q' :
  (∀ d, matches q d = true → matches q' d = true) →
  update_zero (update_zero st q) q' = update_zero st q'
  ∧ update_zero (update_zero st q') q = update_zero st q'.
Proof.
  intros Hq. unfold update_zero. rewrite <- !list_fmap_compose.
  split; apply list_fmap_ext; intros n d _; simpl.
  - destruct (matches q d) eqn:M; [|done].
    by rewrite matches_zero, (Hq _ M).
  - destruct (matches q' d) eqn:M'; [|by destruct (matches q d) eqn:M;
      [rewrite (Hq _ M) in M'|]].
    rewrite matches_zero. by destruct (matches q d).
Qed.

Lemma save_store c st this : (save c st this).1 = (pre_save c st this).1.
Proof. unfold save. by destruct (pre_save c st this) as [st' [?|?]]. Qed.

Lemma pre_save_store c st this :
  counterModel c = atomic →
  (pre_save c st this).1
  = if isNew this
    then (upsert_inc st (opt_id (options c))
            (getReferenceField c (toJSON this))).1
    else st.
Proof.
  intros host. destruct (isNew this) eqn:Hnew.
  - by rewrite pre_save_new.
  - unfold pre_save. by rewrite Hnew.
Qed.

(** Distinct pairs survive one operation, and any number of them. *)
Lemma perform_unique st o :
  served_atomically o →
  NoDup (pair <$> st) → NoDup (pair <$> perform st o).
Proof.
  intros host Hdup. destruct o as [c this|c id reference]; simpl in *.
  - rewrite save_store, pre_save_store by done.
    destruct (isNew this); [|done].
    destruct (upsert_inc_pairs st (opt_id (options c))
                (getReferenceField c (toJSON this)))
      as [[_ ->]|[Hout ->]]; [done|].
    apply NoDup_app. split; [done|]. split; [|apply NoDup_singleton].
    intros x Hx ->%list_elem_of_singleton. done.
  - rewrite resetCounter_atomic by done. simpl.
    by rewrite update_zero_pairs.
Qed.

Lemma history_unique st os :
  Forall served_atomically os →
  NoDup (pair <$> st) → NoDup (pair <$> foldl perform st os).
Proof.
  intros Hos. revert st. induction Hos as [|o os Ho _ IH]; intros st Hst;
    simpl; [done|].
  apply IH. by apply perform_unique.
Qed.

(** So do counters that are not negative. *)
Lemma perform_nonneg st o :
  served_atomically o →
  Forall (λ d, (0 ≤ doc_counter d)%Z) st →
  Forall (λ d, (0 ≤ doc_counter d)%Z) (perform st o).
Proof.
  intros host Hpos. destruct o as [c this|c id reference]; simpl in *.
  - rewrite save_store, pre_save_store by done.
    destruct (isNew this); [|done]. by apply upsert_inc_nonneg.
  - rewrite resetCounter_atomic by done. simpl. by apply update_zero_nonneg.
Qed.

Lemma history_nonneg st os :
  Forall served_atomically os →
  Forall (λ d, (0 ≤ doc_counter d)%Z) st →
  Forall (λ d, (0 ≤ doc_counter d)%Z) (foldl perform st os).
Proof.
  intros Hos. revert st. induction Hos as [|o os Ho _ IH]; intros st Hst;
    simpl; [done|].
  apply IH. by apply perform_nonneg.
Qed.

Lemma current_nonneg st i r :
  Forall (λ d, (0 ≤ doc_counter d)%Z) st → (0 ≤ current st i r)%Z.
Proof.
  unfold current. induction 1 as [|d st Hd _ IH]; simpl; [done|].
  by destruct (matches (key i r) d).
Qed.

End Collection.

(** X10.  On the atomic store the hook never removes a counter document
    and never changes the id or reference of one: the pairs stay as they
    are, in order, followed by the hook's own pair when it was not there
    yet; a reset, with or without a reference, leaves all pairs as they
    are. *)
Theorem collection_pairs c st :
  counterModel c = atomic →
  (∀ this,
     let own := (opt_id (options c), getReferenceField c (toJSON this)) in
     pair <$> (pre_save c st this).1
     = if bool_decide (isNew this = true ∧ (own ∉ pair <$> st))
       then (pair <$> st) ++ [own]
       else pair <$> st)
  ∧ (∀ id reference,
       pair <$> (resetCounter c st id reference).1 = pair <$> st).
Proof.
  intros host. split.
  - intros this own. rewrite pre_save_store by done.
    destruct (isNew this);
      [|by rewrite bool_decide_eq_false_2 by (by intros [? _])].
    destruct (upsert_inc_pairs st (opt_id (options c))
                (getReferenceField c (toJSON this)))
      as [[Hin ->]|[Hout ->]].
    + by rewrite bool_decide_eq_false_2 by (by intros [_ ?]).
    + by rewrite bool_decide_eq_true_2.
  - intros id reference. rewrite resetCounter_atomic by done. simpl.
    apply update_zero_pairs.
Qed.

Lemma collection_pairs_witness :
  pair <$> (pre_save Example.inhabitants [] Example.paris).1
  = [("seq", Some Example.FR_Paris)]
  ∧ pair <$> (resetCounter Example.inhabitants scenario "seq" Callback).1
    = pair <$> scenario.
Proof.
  split.
  - exact (proj1 (collection_pairs Example.inhabitants [] eq_refl)
             Example.paris).
  - exact (proj2 (collection_pairs Example.inhabitants scenario eq_refl)
             "seq" Callback).
Defined.

(** X11.  Saves and resets through the atomic model, in any number and
    order and through any counters, keep the [(id, reference)] pairs of the
    collection distinct: starting from a collection without duplicates, and
    so from the empty one, no two counter documents ever share a pair. *)
Theorem pairs_stay_unique st os :
  Forall served_atomically os →
  (NoDup (pair <$> st) → NoDup (pair <$> foldl perform st os))
  ∧ NoDup (pair <$> foldl perform [] os).
Proof.
  intros Hos. split; [by apply history_unique|].
  apply history_unique; [done|]. apply NoDup_nil_2.
Qed.

Lemma pairs_stay_unique_witness :
  NoDup (pair <$> foldl perform []
           [Save Example.inhabitants Example.paris;
            Save Example.inhabitants Example.nyc;
            Reset Example.inhabitants "seq" Callback;
            Save Example.inhabitants Example.paris]).
Proof.
  apply (pairs_stay_unique []). repeat constructor.
Defined.

(** X12.  In a collection built from the empty one by saves and resets
    through the atomic model no counter is negative, and the next new
    document saved receives a value of at least 1. *)
Theorem counters_stay_positive os c this :
  Forall served_atomically os →
  counterModel c = atomic →
  isNew this = true →
  let st := foldl perform [] os in
  Forall (λ d, (0 ≤ doc_counter d)%Z) st
  ∧ ∃ v, (pre_save c st this).2
         = Ok (set this (opt_incField (options c)) (VNumber v))
         ∧ (1 ≤ v)%Z.
Proof.
  intros Hos host Hnew st.
  assert (Forall (λ d, (0 ≤ doc_counter d)%Z) st) as Hpos.
  { by apply history_nonneg. }
  split; [done|]. rewrite pre_save_new by done. simpl.
  eexists. split; [done|].
  pose proof (current_nonneg st (opt_id (options c))
                (getReferenceField c (toJSON this)) Hpos). lia.
Qed.

Lemma counters_stay_positive_witness :
  ∃ v, (pre_save Example.inhabitants
          (foldl perform []
             [Save Example.inhabitants Example.paris;
              Reset Example.inhabitants "seq" Callback])
          Example.paris).2
       = Ok (set Example.paris "inhabitant_number" (VNumber v))
       ∧ (1 ≤ v)%Z.
Proof.
  refine (proj2 (counters_stay_positive
                   [Save Example.inhabitants Example.paris;
                    Reset Example.inhabitants "seq" Callback]
                   Example.inhabitants Example.paris _ eq_refl eq_refl)).
  repeat constructor.
Defined.

(** ** Resets and sequences *)

(** X13.  On the atomic store a reset repeated changes nothing more, and a
    reset of a whole id absorbs a reset of one of its references, whichever
    of the two comes first. *)
Theorem resetCounter_idempotent c st id reference :
  counterModel c = atomic →
  let once := (resetCounter c st id reference).1 in
  let whole := (resetCounter c st id Callback).1 in
  resetCounter c once id reference = (once, Resolved tt)
  ∧ (resetCounter c once id Callback).1 = whole
  ∧ (resetCounter c whole id reference).1 = whole.
Proof.
  intros host once whole. subst once whole.
  rewrite !resetCounter_atomic by done. simpl.
  assert (∀ d, matches (resetCondition c id reference) d = true →
               matches (resetCondition c id Callback) d = true) as Hwider.
  { intros d. destruct reference; [|done]. simpl.
    intros [Hid _]%matches_key. by apply matches_id. }
  split; [|exact (update_zero_absorb st _ _ Hwider)].
  f_equal. apply (update_zero_absorb st _ _ (λ d H, H)).
Qed.

Lemma resetCounter_idempotent_witness :
  let once :=
    (resetCounter Example.inhabitants scenario "seq"
       (Reference FR_Paris_key)).1 in
  resetCounter Example.inhabitants once "seq" (Reference FR_Paris_key)
  = (once, Resolved tt).
Proof.
  exact (proj1 (resetCounter_idempotent Example.inhabitants scenario "seq"
                  (Reference FR_Paris_key) eq_refl)).
Defined.

(** X14.  A global counter ignores the mapping handed to [resetCounter]:
    whatever it holds, on the atomic store the documents reset are those of
    the id whose reference is [null], so counter documents of scoped
    counters under the same id are left alone. *)
Theorem resetCounter_global c st id (reference : StringMap) :
  useReference c = false →
  counterModel c = atomic →
  ∃ st',
    (∀ reference' : StringMap,
       resetCounter c st id (Reference reference') = (st', Resolved tt))
    ∧ (∀ n d, st !! n = Some d →
         st' !! n
         = Some (if decide (doc_id d = id ∧ doc_reference d = None)
                 then zero d else d)).
Proof.
  intros Hmode host. exists (update_zero st (key id None)). split.
  - intros reference'. rewrite resetCounter_atomic by done.
    unfold resetCondition, getReferenceField. by rewrite Hmode.
  - intros n d Hn. rewrite update_zero_lookup, Hn. simpl. f_equal.
    destruct (matches (key id None) d) eqn:M; case_decide as E; try done.
    + by apply matches_key in M.
    + by apply matches_key in E; rewrite E in M.
Qed.

Lemma resetCounter_global_witness :
  ∃ st',
    resetCounter Example.global scenario "seq" (Reference FR_Paris_key)
    = (st', Resolved tt)
    ∧ st' !! 0%nat
      = Some {| doc_id := "seq"; doc_reference := Some Example.FR_Paris;
                doc_counter := 2 |}.
Proof.
  destruct (resetCounter_global Example.global
              [{| doc_id := "seq"; doc_reference := Some Example.FR_Paris;
                  doc_counter := 2 |};
               {| doc_id := "seq"; doc_reference := Some Example.US_NYC;
                  doc_counter := 1 |}] "seq" ∅ eq_refl eq_refl)
    as (st' & H1 & H2).
  exists st'. split; [exact (H1 FR_Paris_key)|].
  exact (H2 0%nat _ eq_refl).
Defined.

(** X17.  On the atomic store, resetting a counter with a document's own
    JSON as the reference mapping resets that document's sequence: fields
    that are not reference fields are ignored, and the next save of such a
    document receives 1. *)
Theorem resetCounter_by_document c st this :
  counterModel c = atomic →
  isNew this = true →
  let st' := (resetCounter c st (opt_id (options c))
                (Reference (toJSON this))).1 in
  current st' (opt_id (options c)) (getReferenceField c (toJSON this)) = 0%Z
  ∧ (pre_save c st' this).2
    = Ok (set this (opt_incField (options c)) (VNumber 1)).
Proof.
  intros host Hnew st'. subst st'.
  rewrite resetCounter_atomic by done. simpl.
  assert (current
            (update_zero st
               (key (opt_id (options c)) (getReferenceField c (toJSON this))))
            (opt_id (options c)) (getReferenceField c (toJSON this)) = 0%Z)
    as Hzero by (by apply update_zero_current).
  split; [exact Hzero|]. rewrite pre_save_new by done. simpl.
  unfold resetCondition, key in *. by rewrite Hzero.
Qed.

Lemma resetCounter_by_document_witness :
  (pre_save Example.inhabitants
     (resetCounter Example.inhabitants scenario "seq"
        (Reference (toJSON Example.paris))).1 Example.paris).2
  = Ok (set Example.paris "inhabitant_number" (VNumber 1)).
Proof.
  exact (proj2 (resetCounter_by_document Example.inhabitants scenario
                  Example.paris eq_refl eq_refl)).
Defined.

(** ** Numbers *)

Lemma toNumber_safe z : isSafeInteger z = true → toNumber z = z.
Proof.
  unfold isSafeInteger, toNumber, MAX_SAFE_INTEGER.
  intros [H1 H2]%andb_true_iff. apply Z.leb_le in H1, H2.
  assert (Z.log2 (Z.abs z) ≤ 52)%Z as Hlog.
  { destruct (decide (Z.abs z = 0%Z)) as [->|Hnz]; [done|].
    apply Z.lt_succ_r, Z.log2_lt_pow2; [lia|].
    change (2 ^ Z.succ 52)%Z with 9007199254740992%Z. lia. }
  by rewrite (proj2 (Z.leb_le _ _) Hlog).
Qed.

Lemma isSafeInteger_between a b x :
  isSafeInteger a = true → isSafeInteger b = true →
  (a ≤ x ≤ b)%Z → isSafeInteger x = true.
Proof.
  unfold isSafeInteger. rewrite !andb_true_iff, !Z.leb_le. lia.
Qed.

Section NumberHook.

Variable c : MongooseCounter.
Hypothesis host : counterModel c = atomic_number.

Let id := opt_id (options c).
Let incField := opt_incField (options c).

Lemma pre_save_new_number st this :
  isNew this = true →
  pre_save c st this
  = ((upsert_inc st id (getReferenceField c (toJSON this))).1,
     Ok (set this incField
           (VNumber (toNumber
              (current st id (getReferenceField c (toJSON this)) + 1))))).
Proof.
  intros Hnew. unfold pre_save. rewrite Hnew, host. simpl.
  pose proof (upsert_inc_result st id (getReferenceField c (toJSON this)))
    as (_ & _ & Hc).
  fold id. destruct (upsert_inc st id _) as [st' res]. simpl in *.
  by rewrite Hc.
Qed.

Lemma save_new_number st this :
  isNew this = true →
  save c st this
  = ((upsert_inc st id (getReferenceField c (toJSON this))).1,
     Ok {| isNew := false;
           fields := <[incField := VNumber (toNumber
                         (current st id
                            (getReferenceField c (toJSON this)) + 1))]>
                       (fields this) |}).
Proof. intros Hnew. unfold save. by rewrite pre_save_new_number. Qed.

Lemma upsert_inc_current_other st r0 r :
  r ≠ r0 → current (upsert_inc st id r0).1 id r = current st id r.
Proof.
  intros Hne. unfold current.
  destruct (upsert_inc_frame st id r0 (key id r)) as [_ ->]; [|done].
  intros d. apply key_disjoint. congruence.
Qed.

Lemma requested_insert_ne (pool : list task) n t m :
  n ≠ m → requested (<[n := t]> pool) m = requested pool m.
Proof. intros Hne. unfold requested. by rewrite list_lookup_insert_ne. Qed.

Lemma served_before_insert pool schedule k r n t :
  n ∉ schedule →
  served_before (<[n := t]> pool) schedule k r
  = served_before pool schedule k r.
Proof.
  intros Hn. unfold served_before. revert k.
  induction schedule as [|m schedule IH]; intros [|k]; simpl; try done.
  apply not_elem_of_cons in Hn as [Hnm Hn].
  rewrite !filter_cons, requested_insert_ne by done.
  case_decide; simpl; by rewrite IH.
Qed.

(** When every request is for [r], the requests served before the [k]-th
    are [k]. *)
Lemma served_before_same pool schedule k r :
  (∀ n, n ∈ schedule → requested pool n = Some r) →
  k ≤ length schedule →
  served_before pool schedule k r = k.
Proof.
  unfold served_before. revert k.
  induction schedule as [|m schedule IH]; intros [|k] Hall Hk; simpl in *;
    try done; [lia|].
  rewrite filter_cons, decide_True by (apply Hall; by left). simpl.
  f_equal. apply IH; [|lia]. intros n Hn. apply Hall. by right.
Qed.

(** Requests served in any order: each document gets the Number for the
    value its pair stood at, plus the requests for that pair served before
    its own, plus one. *)
Lemma run_mixed schedule : ∀ st pool,
  NoDup schedule →
  (∀ n, n ∈ schedule → ∃ this r, pool !! n = Some (Awaiting this r)) →
  ∃ st' pool',
    run c (st, pool) schedule = Some (st', pool')
    ∧ length pool' = length pool
    ∧ (∀ k n this r,
         schedule !! k = Some n →
         pool !! n = Some (Awaiting this r) →
         pool' !! n
         = Some (Finished (Ok (set this incField
             (VNumber (toNumber
                (current st id r
                 + Z.of_nat (served_before pool schedule k r) + 1)))))))
    ∧ (∀ n, n ∉ schedule → pool' !! n = pool !! n)
    ∧ (∀ r, current st' id r
            = (current st id r
               + Z.of_nat (served_before pool schedule (length schedule) r))%Z).
Proof.
  induction schedule as [|n schedule IH]; intros st pool Hdup Hpool.
  { exists st, pool. simpl. repeat split; try done.
    intros r. unfold served_before. simpl. lia. }
  apply NoDup_cons in Hdup as [Hn Hdup].
  destruct (Hpool n) as (this0 & r0 & Hthis0); [by left|].
  pose proof (upsert_inc_result st id r0) as (_ & _ & Hres).
  simpl. unfold serve. simpl. rewrite Hthis0, host. simpl. fold id.
  destruct (upsert_inc st id r0) as [st1 res] eqn:Hup. simpl in *.
  set (pool1 := <[n := _]> pool).
  destruct (IH st1 pool1 Hdup) as (st' & pool' & Hrun & Hlen & Hk & Ho & Hc).
  { intros m Hm. destruct (Hpool m) as (that & r & Hthat); [by right|].
    exists that, r. unfold pool1. rewrite list_lookup_insert_ne; [done|].
    intros ->. done. }
  assert (∀ r, current st1 id r
               = (current st id r
                  + if decide (requested pool n = Some r) then 1 else 0)%Z)
    as Hcur.
  { intros r. unfold requested. rewrite Hthis0.
    replace st1 with (upsert_inc st id r0).1 by (by rewrite Hup).
    case_decide as E.
    - injection E as <-. apply upsert_inc_current.
    - rewrite upsert_inc_current_other; [lia|]. congruence. }
  assert (∀ k r, served_before pool (n :: schedule) (S k) r
                 = ((if decide (requested pool n = Some r) then 1 else 0)
                    + served_before pool1 schedule k r)%nat) as Hcount.
  { intros k r. unfold pool1. rewrite served_before_insert by done.
    unfold served_before. simpl. rewrite filter_cons.
    by case_decide. }
  exists st', pool'. split; [done|]. split.
  { rewrite Hlen. unfold pool1. apply length_insert. }
  split; [|split].
  - intros [|k] m this r Hm Hthis; simpl in Hm.
    + injection Hm as <-. rewrite Hthis0 in Hthis. injection Hthis as <- <-.
      rewrite Ho by done. unfold pool1.
      rewrite list_lookup_insert_eq by (by eapply lookup_lt_Some).
      rewrite Hres. unfold served_before. simpl. do 6 f_equal. lia.
    + assert (m ≠ n) as Hmn.
      { intros ->. apply Hn. by eapply list_elem_of_lookup_2. }
      rewrite (Hk k m this r Hm)
        by (unfold pool1; by rewrite list_lookup_insert_ne).
      rewrite Hcur, Hcount. do 6 f_equal. case_decide; lia.
  - intros m Hm. apply not_elem_of_cons in Hm as [Hmn Hm].
    rewrite Ho by done. unfold pool1. by rewrite list_lookup_insert_ne.
  - intros r. rewrite Hc, Hcur. simpl length. rewrite Hcount.
    case_decide; lia.
Qed.

End NumberHook.




(** C2, as stated, fails: of two saves of new FR/Paris documents in flight
    on an empty collection, on a model whose upsert is not atomic, the one
    served first loses the creation to a rival and ends with the
    duplicate-key error, and the other receives 2: one caller has no value
    and the values handed to the two are not 1 and 2. *)
Lemma racing_saves_miss_a_value :
  ∃ st' pool,
    run loser ([], start loser <$> [Example.paris; Example.paris]) [0; 1]
    = Some (st', pool)
    ∧ pool !! 0 = Some (Finished (Err duplicate_key))
    ∧ allocated loser <$> pool = [None; Some 2%Z].
Proof. eexists _, _. split; [reflexivity|]. vm_compute. done. Qed.

(** C2, amended.  On the atomic model answering with Numbers, when any
    number of new documents of one [(id, reference)] pair are being saved at
    once and the values stay safe integers, then in whatever order the host
    serves their requests every save finishes, and the values written are
    the [n] values that follow the value the pair stood at: none twice,
    none left out; for a pair that stood at 0 or had no counter document
    they are exactly 1 .. n. *)
Theorem concurrent_saves_same_pair c r st docs schedule :
  counterModel c = atomic_number →
  Forall (λ this, isNew this = true
                  ∧ getReferenceField c (toJSON this) = r) docs →
  schedule ≡ₚ seq 0 (length docs) →
  let v := current st (opt_id (options c)) r in
  isSafeInteger v = true →
  isSafeInteger (v + Z.of_nat (length docs)) = true →
  ∃ st' pool values,
    run c (st, start c <$> docs) schedule = Some (st', pool)
    ∧ allocated c <$> pool = Some <$> values
    ∧ length values = length docs
    ∧ (∀ k n, schedule !! k = Some n →
         values !! n = Some (v + Z.of_nat k + 1)%Z)
    ∧ values ≡ₚ following v (length docs)
    ∧ NoDup values
    ∧ (∀ x, x ∈ values ↔ (v < x ≤ v + Z.of_nat (length docs))%Z)
    ∧ (v = 0%Z → ∀ x, x ∈ values ↔ (1 ≤ x ≤ Z.of_nat (length docs))%Z)
    ∧ (Forall (λ d, matches (key (opt_id (options c)) r) d = false) st →
       v = 0%Z)
    ∧ current st' (opt_id (options c)) r
      = (v + Z.of_nat (length docs))%Z.
Proof.
  intros host Hdocs Hperm v Hv HvN.
  assert (NoDup schedule) as Hdup by (rewrite Hperm; apply NoDup_seq).
  assert (length schedule = length docs) as Hlens.
  { by rewrite Hperm, length_seq. }
  assert (∀ n, n ∈ schedule ↔ n < length docs) as Hin.
  { intros n. rewrite Hperm, elem_of_seq. lia. }
  assert (∀ n this, docs !! n = Some this →
            (start c <$> docs) !! n = Some (Awaiting this r)) as Hstart.
  { intros n this Hthis. rewrite list_lookup_fmap, Hthis. simpl.
    rewrite Forall_lookup in Hdocs. destruct (Hdocs _ _ Hthis) as [Hnew <-].
    unfold start. by rewrite Hnew. }
  assert (∀ n, n ∈ schedule → requested (start c <$> docs) n = Some r)
    as Hreq.
  { intros n [this Hthis]%Hin%lookup_lt_is_Some. unfold requested.
    by rewrite (Hstart _ _ Hthis). }
  destruct (run_mixed c host schedule st (start c <$> docs) Hdup)
    as (st' & pool & Hrun & Hlen & Hk & _ & Hc).
  { intros n [this Hthis]%Hin%lookup_lt_is_Some. eauto. }
  rewrite length_fmap in Hlen.
  assert (∀ k n, schedule !! k = Some n →
            ∃ this, pool !! n
                    = Some (Finished (Ok (set this (opt_incField (options c))
                                            (VNumber (v + Z.of_nat k + 1))))))
    as Hfin.
  { intros k n Hkn.
    assert (n ∈ schedule) as Hn by (by eapply list_elem_of_lookup_2).
    destruct (lookup_lt_is_Some_2 docs n (proj1 (Hin n) Hn)) as [this Hthis].
    exists this. rewrite (Hk k n this r Hkn (Hstart _ _ Hthis)).
    pose proof (lookup_lt_Some _ _ _ Hkn) as Hlt.
    rewrite served_before_same by (done || lia). fold v.
    rewrite toNumber_safe; [done|].
    apply (isSafeInteger_between v (v + Z.of_nat (length docs))); [done..|].
    lia. }
  pose (values := (λ t, default 0%Z (allocated c t)) <$> pool).
  assert (length values = length docs) as Hvlen.
  { unfold values. by rewrite length_fmap. }
  assert (∀ k n, schedule !! k = Some n →
            values !! n = Some (v + Z.of_nat k + 1)%Z) as Hval.
  { intros k n Hkn. destruct (Hfin k n Hkn) as (this & Hpool).
    unfold values. rewrite list_lookup_fmap, Hpool. simpl.
    by rewrite lookup_insert_eq. }
  assert (values ≡ₚ following v (length docs)) as Hfollow.
  { rewrite <- Hvlen. apply (scheduled_values values schedule);
      [by rewrite Hvlen|done]. }
  exists st', pool, values. split; [done|]. split.
  { apply list_eq. intros n. unfold values. rewrite !list_lookup_fmap.
    destruct (pool !! n) as [t|] eqn:Ht; [|done]. simpl.
    assert (n ∈ schedule) as [k Hkn]%list_elem_of_lookup.
    { apply Hin. apply lookup_lt_Some in Ht. lia. }
    destruct (Hfin k n Hkn) as (this & Hpool). rewrite Ht in Hpool.
    injection Hpool as ->. by rewrite allocated_set. }
  split; [done|]. split; [done|]. split; [done|]. split.
  { rewrite Hfollow. apply following_NoDup. }
  split.
  { intros x. rewrite Hfollow. apply following_elem. }
  split.
  { intros Hv0 x. rewrite Hfollow, following_elem. lia. }
  split; [apply current_fresh|].
  rewrite Hc. fold v. rewrite <- Hlens.
  by rewrite served_before_same.
Qed.

Lemma concurrent_saves_same_pair_witness :
  ∃ st' pool,
    run Example.numbered
      ([], start Example.numbered
             <$> [Example.paris; Example.paris; Example.paris])
      [2; 0; 1]
    = Some (st', pool)
    ∧ allocated Example.numbered <$> pool
      = [Some 2%Z; Some 3%Z; Some 1%Z]
    ∧ current st' "seq" (Some Example.FR_Paris) = 3%Z.
Proof.
  destruct (concurrent_saves_same_pair Example.numbered
              (Some Example.FR_Paris) []
              [Example.paris; Example.paris; Example.paris] [2; 0; 1]
              eq_refl)
    as (st' & pool & values & H1 & H2 & _ & _ & _ & _ & _ & _ & _ & H3).
  - repeat constructor.
  - change (seq 0 3) with [0; 1; 2].
    eapply perm_trans; [apply perm_swap | apply perm_skip, perm_swap].
  - reflexivity.
  - reflexivity.
  - exists st', pool. split; [exact H1|]. split; [|exact H3].
    rewrite H2. injection H1 as <- <-. vm_compute. done.
Defined.

(** ** Sequences of saves *)

(** X15.  On the atomic model answering with Numbers, new documents of one
    pair saved one after the other, with the values staying safe integers,
    all succeed and receive consecutive values in the order of the saves,
    starting one above the value the pair stood at; each comes back no
    longer new and otherwise only changed in its increment field. *)
Theorem saveAll_in_order c r st docs :
  counterModel c = atomic_number →
  Forall (λ this, isNew this = true
                  ∧ getReferenceField c (toJSON this) = r) docs →
  let v := current st (opt_id (options c)) r in
  isSafeInteger v = true →
  isSafeInteger (v + Z.of_nat (length docs)) = true →
  ∃ st',
    saveAll c st docs
    = (st',
       imap (λ k this,
               Ok {| isNew := false;
                     fields := <[opt_incField (options c)
                                   := VNumber (v + Z.of_nat k + 1)]>
                                 (fields this) |}) docs)
    ∧ current st' (opt_id (options c)) r = (v + Z.of_nat (length docs))%Z.
Proof.
  intros host Hdocs. revert st.
  induction Hdocs as [|this docs [Hnew Hr] _ IH]; intros st v Hv HvN;
    simpl in *.
  - exists st. split; [done|]. unfold v. lia.
  - rewrite save_new_number by done. rewrite Hr. fold v.
    assert (isSafeInteger (v + 1) = true) as Hv1.
    { apply (isSafeInteger_between v (v + Z.of_nat (S (length docs))));
        [done..|lia]. }
    destruct (IH (upsert_inc st (opt_id (options c)) r).1)
      as (st' & -> & Hcur).
    { by rewrite upsert_inc_current. }
    { rewrite upsert_inc_current. fold v.
      by replace (v + 1 + Z.of_nat (length docs))%Z
        with (v + Z.of_nat (S (length docs)))%Z by lia. }
    rewrite upsert_inc_current in *. fold v in Hcur |- *.
    rewrite toNumber_safe by done.
    exists st'. split; [|lia]. f_equal. f_equal.
    + do 4 f_equal. lia.
    + apply imap_ext. intros k that _. simpl. do 4 f_equal. lia.
Qed.

Lemma saveAll_in_order_witness :
  ∃ st',
    saveAll Example.numbered [] [Example.paris; Example.paris]
    = (st',
       [Ok {| isNew := false;
              fields := <["inhabitant_number" := VNumber 1]>
                          (fields Example.paris) |};
        Ok {| isNew := false;
              fields := <["inhabitant_number" := VNumber 2]>
                          (fields Example.paris) |}])
    ∧ current st' "seq" (Some Example.FR_Paris) = 2%Z.
Proof.
  refine (saveAll_in_order Example.numbered (Some Example.FR_Paris) []
            [Example.paris; Example.paris] eq_refl _ eq_refl eq_refl).
  repeat constructor.
Defined.

(** X16.  Counters are told apart by collection name, id and derived
    reference.  A save through a counter leaves every other collection of
    the database as it was, so a later save through a counter of another
    collection ends as it would have without it.  On the atomic model
    answering with Numbers, a save through one counter and then a save
    through a counter of the same collection with the same id and the same
    derived reference draw consecutive values from one counter document, as
    long as those are safe integers. *)
Theorem save_in_collections c1 c2
    (db : gmap string (list CounterDocument)) this1 this2 :
  (opt_collectionName (options c1) ≠ opt_collectionName (options c2) →
   (∀ name, name ≠ opt_collectionName (options c1) →
            collection (save_in c1 db this1).1 name = collection db name)
   ∧ (save_in c2 (save_in c1 db this1).1 this2).2 = (save_in c2 db this2).2)
  ∧ (counterModel c1 = atomic_number → counterModel c2 = atomic_number →
     opt_collectionName (options c1) = opt_collectionName (options c2) →
     opt_id (options c1) = opt_id (options c2) →
     getReferenceField c1 (toJSON this1)
     = getReferenceField c2 (toJSON this2) →
     isNew this1 = true → isNew this2 = true →
     let v := current (collection db (opt_collectionName (options c1)))
                (opt_id (options c1))
                (getReferenceField c1 (toJSON this1)) in
     isSafeInteger (v + 1) = true → isSafeInteger (v + 2) = true →
     (save_in c1 db this1).2
     = Ok {| isNew := false;
             fields := <[opt_incField (options c1) := VNumber (v + 1)]>
                         (fields this1) |}
     ∧ (save_in c2 (save_in c1 db this1).1 this2).2
       = Ok {| isNew := false;
               fields := <[opt_incField (options c2) := VNumber (v + 2)]>
                           (fields this2) |}).
Proof.
  split.
  - intros Hne.
    assert (∀ name, name ≠ opt_collectionName (options c1) →
              collection (save_in c1 db this1).1 name = collection db name)
      as Hother.
    { intros name Hname. unfold save_in.
      destruct (save c1 _ this1) as [st' res]. simpl. unfold collection.
      by rewrite lookup_insert_ne. }
    split; [done|]. unfold save_in at 1 3.
    rewrite Hother by done.
    by destruct (save c2 _ this2) as [st' res].
  - intros host1 host2 Hcoll Hid Hkey Hnew1 Hnew2 v Hv1 Hv2.
    unfold save_in. rewrite <- Hcoll.
    rewrite (save_new_number c1 host1) by done. fold v. simpl.
    rewrite toNumber_safe by done. split; [done|].
    unfold collection at 1. rewrite lookup_insert_eq. simpl.
    rewrite (save_new_number c2 host2) by done. simpl.
    rewrite <- Hid, <- Hkey, upsert_inc_current. fold v.
    replace (v + 1 + 1)%Z with (v + 2)%Z by lia.
    by rewrite toNumber_safe.
Qed.

Lemma save_in_collections_witness :
  let other :=
    {| options := {| opt_id := "seq"; opt_incField := "number";
                     opt_referenceFields := ["country"; "city"];
                     opt_collectionName := "counters" |};
       useReference := true;
       counterModel := atomic_number |} in
  let apart :=
    {| options := {| opt_id := "seq"; opt_incField := "number";
                     opt_referenceFields := ["country"; "city"];
                     opt_collectionName := "sequences" |};
       useReference := true;
       counterModel := atomic_number |} in
  (save_in other (save_in Example.numbered ∅ Example.paris).1
     Example.paris).2
  = Ok {| isNew := false;
          fields := <["number" := VNumber 2]> (fields Example.paris) |}
  ∧ (save_in apart (save_in Example.numbered ∅ Example.paris).1
       Example.paris).2
    = (save_in apart ∅ Example.paris).2.
Proof.
  intros other apart. split.
  - exact (proj2 (proj2 (save_in_collections Example.numbered other ∅
                           Example.paris Example.paris)
                    eq_refl eq_refl eq_refl eq_refl eq_refl eq_refl eq_refl
                    eq_refl eq_refl)).
  - exact (proj2 (proj1 (save_in_collections Example.numbered apart ∅
                           Example.paris Example.paris)
                    ltac:(discriminate))).
Defined.

(** X18.  On the atomic model answering with Numbers, when new documents
    of any pairs of one counter are being saved at once and the values stay
    safe integers, then in whatever order the host serves their requests
    every save finishes, and each document receives the value its own pair
    stood at, plus the number of requests for that pair served before its
    own, plus one: saves of other pairs do not count. *)
Theorem concurrent_saves_any_pairs c st docs schedule :
  counterModel c = atomic_number →
  Forall (λ this, isNew this = true) docs →
  schedule ≡ₚ seq 0 (length docs) →
  (∀ r, isSafeInteger (current st (opt_id (options c)) r) = true
        ∧ isSafeInteger (current st (opt_id (options c)) r
                         + Z.of_nat (length docs)) = true) →
  ∃ st' pool,
    run c (st, start c <$> docs) schedule = Some (st', pool)
    ∧ length pool = length docs
    ∧ (∀ k n this,
         schedule !! k = Some n → docs !! n = Some this →
         let r := getReferenceField c (toJSON this) in
         allocated c <$> pool !! n
         = Some (Some (current st (opt_id (options c)) r
                       + Z.of_nat (served_before (start c <$> docs)
                                     schedule k r) + 1)%Z))
    ∧ (∀ r, current st' (opt_id (options c)) r
            = (current st (opt_id (options c)) r
               + Z.of_nat (served_before (start c <$> docs) schedule
                             (length docs) r))%Z).
Proof.
  intros host Hdocs Hperm Hsafe.
  assert (NoDup schedule) as Hdup by (rewrite Hperm; apply NoDup_seq).
  assert (length schedule = length docs) as Hlens.
  { by rewrite Hperm, length_seq. }
  assert (∀ n this, docs !! n = Some this →
            (start c <$> docs) !! n
            = Some (Awaiting this (getReferenceField c (toJSON this))))
    as Hstart.
  { intros n this Hthis. rewrite list_lookup_fmap, Hthis. simpl.
    rewrite Forall_lookup in Hdocs. unfold start.
    by rewrite (Hdocs _ _ Hthis). }
  destruct (run_mixed c host schedule st (start c <$> docs) Hdup)
    as (st' & pool & Hrun & Hlen & Hk & _ & Hc).
  { intros n Hn. rewrite Hperm, elem_of_seq in Hn.
    destruct (lookup_lt_is_Some_2 docs n) as [this Hthis]; [lia|].
    eauto. }
  rewrite length_fmap in Hlen.
  exists st', pool. split; [done|]. split; [done|]. split.
  - intros k n this Hkn Hthis r.
    rewrite (Hk k n this r Hkn (Hstart _ _ Hthis)). simpl.
    rewrite lookup_insert_eq. do 2 f_equal.
    apply toNumber_safe. destruct (Hsafe r) as [Hlow Hhigh].
    eapply isSafeInteger_between; [exact Hlow|exact Hhigh|].
    assert (served_before (start c <$> docs) schedule k r ≤ k) as Hle.
    { unfold served_before. etrans; [apply length_filter|].
      rewrite length_take. lia. }
    pose proof (lookup_lt_Some _ _ _ Hkn) as Hlt. lia.
  - intros r. by rewrite Hc, Hlens.
Qed.

Lemma concurrent_saves_any_pairs_witness :
  ∃ st' pool,
    run Example.numbered
      ([], start Example.numbered
             <$> [Example.paris; Example.nyc; Example.paris])
      [2; 1; 0]
    = Some (st', pool)
    ∧ allocated Example.numbered <$> pool
      = [Some 2%Z; Some 1%Z; Some 1%Z].
Proof.
  destruct (concurrent_saves_any_pairs Example.numbered []
              [Example.paris; Example.nyc; Example.paris] [2; 1; 0]
              eq_refl)
    as (st' & pool & H1 & _).
  - repeat constructor.
  - change (seq 0 3) with [0; 1; 2].
    eapply perm_trans; [apply perm_swap|].
    eapply perm_trans; [apply perm_skip, perm_swap|]. apply perm_swap.
  - intros r. split; reflexivity.
  - exists st', pool. split; [exact H1|].
    injection H1 as <- <-. vm_compute. reflexivity.
Defined.

(** ** An id that is there and undefined *)

(** C3: here the code departs from the claim.  Options that hold reference
    fields and an [id] property whose value is [undefined] carry no id, yet
    the guard, which compares with [null], lets them pass: the constructor
    returns a scoped counter named after its increment field and registers
    its model. *)
Theorem constructor_undefined_id (toUpperCase : string → string) mongoose p
    fs incField collectionName :
  p_id p = Undefined →
  p_referenceFields p = Given fs →
  spread (Some "_id") (p_incField p) = Some incField →
  incField ≠ EmptyString →
  spread (Some "counters") (p_collectionName p) = Some collectionName →
  modelName toUpperCase collectionName incField ∉ models mongoose →
  ∃ c,
    constructor toUpperCase mongoose (Some p)
    = ({| models := modelName toUpperCase collectionName incField
                    :: models mongoose;
          driver := driver mongoose |}, Ok c)
    ∧ useReference c = true
    ∧ opt_id (options c) = incField
    ∧ opt_incField (options c) = incField.
Proof.
  intros Hid Hfs Hinc Hne Hcoll Hfree.
  unfold constructor, createCounterModel. simpl.
  rewrite Hid, Hfs, Hinc, Hcoll. simpl.
  rewrite (bool_decide_eq_false_2 (incField = EmptyString)) by done. simpl.
  rewrite bool_decide_eq_false_2 by done.
  eexists. split; [done|]. by destruct fs.
Qed.

Lemma constructor_undefined_id_witness :
  ∃ c,
    constructor Example.upper Example.mongoose
      (Some {| p_id := Undefined;
               p_incField := Given "inhabitant_number";
               p_referenceFields := Given (Several ["country"; "city"]);
               p_collectionName := Absent |})
    = ({| models := ["Counters_inhabitant_number"]; driver := atomic |},
       Ok c)
    ∧ useReference c = true
    ∧ opt_id (options c) = "inhabitant_number".
Proof.
  destruct (constructor_undefined_id Example.upper Example.mongoose
              {| p_id := Undefined;
                 p_incField := Given "inhabitant_number";
                 p_referenceFields := Given (Several ["country"; "city"]);
                 p_collectionName := Absent |}
              (Several ["country"; "city"]) "inhabitant_number" "counters"
              eq_refl eq_refl eq_refl ltac:(discriminate) eq_refl)
    as (c & H1 & H2 & H3 & _).
  - apply not_elem_of_nil.
  - exists c. split; [exact H1|]. split; [exact H2 | exact H3].
Defined.
